(** * epos: collections over a sharded key-value store

    A shallow embedding of [collection.go]: the key sharder
    ([transformFunc]), the identifier allocator kept under the key
    ["_next_id"] ([setNextId], [getNextId]), the replay of index logs
    ([loadIndex], [loadIndexes]) and the operations of a collection
    ([openColl], [Insert], [Update], [Delete], [AddIndex], [RemoveIndex],
    [Reindex], [Query], [QueryAll], [Vacuum]).

    Go values are modelled as follows: a [string] is a Rocq [string] (a
    sequence of bytes), a [[]byte] is a [list Z] of values below 256, an
    [int64] is a [Z] with its wrap-around written out, a Go map is a [gmap],
    an [error] result is an [option error] ([None] is Go's [nil]).  A method
    with a pointer receiver takes the collection and returns the updated
    one. *)

From Stdlib Require Import ZArith Lia List Bool Ascii String DecimalString
  DecimalZ DecimalPos.
From stdpp Require Import gmap strings list.
Import ListNotations.
Local Open Scope string_scope.
Local Open Scope nat_scope.

(** ** Errors *)

(** Go's [error] values: the sentinel [io.EOF], compared by identity in
    [loadIndex], and errors that carry a message ([errors.New], the errors
    of [os], of the store and of the decoders). *)
Inductive error : Type :=
| EOF
| errorString (msg : string).

Definition Error (e : error) : string :=
  match e with
  | EOF => "EOF"
  | errorString msg => msg
  end.

Definition is_EOF (e : error) : bool :=
  match e with
  | EOF => true
  | errorString _ => false
  end.

(** ** encoding/binary: variable-length integers *)

Module Binary.
Local Open Scope Z_scope.

Definition MaxVarintLen64 : nat := 10.

(** Conversions to [uint64], [int64] and [byte]: wrap-around. *)
Definition uint64 (x : Z) : Z := x mod 2 ^ 64.
Definition int64 (x : Z) : Z := (x + 2 ^ 63) mod 2 ^ 64 - 2 ^ 63.
Definition byte (x : Z) : Z := x mod 256.

(** [PutUvarint] writes into a buffer of [MaxVarintLen64] bytes; [room] is
    what is left of it, and the result is the part written, [buf[:n]].  A
    64-bit value never needs more: decoding gives the value back (lemma
    [Varint_PutVarint]). *)
Fixpoint PutUvarint_loop (room : nat) (x : Z) : list Z :=
  match room with
  | O => []
  | S room' =>
      if 128 <=? x
      then Z.lor (byte x) 128 :: PutUvarint_loop room' (Z.shiftr x 7)
      else [byte x]
  end.

Definition PutUvarint (x : Z) : list Z := PutUvarint_loop MaxVarintLen64 x.

Definition PutVarint (x : Z) : list Z :=
  let ux := uint64 (Z.shiftl (uint64 x) 1) in
  let ux := if x <? 0 then uint64 (Z.lnot ux) else ux in
  PutUvarint ux.

(** [Uvarint]: the value and the number of bytes read; [(0, 0)] when the
    buffer ends too early, [(0, -(i+1))] on overflow. *)
Fixpoint Uvarint_loop (buf : list Z) (x s i : Z) : Z * Z :=
  match buf with
  | [] => (0, 0)
  | b :: rest =>
      if i =? Z.of_nat MaxVarintLen64 then (0, - (i + 1))
      else if b <? 128 then
        if (i =? Z.of_nat MaxVarintLen64 - 1) && (1 <? b) then (0, - (i + 1))
        else (Z.lor x (uint64 (Z.shiftl b s)), i + 1)
      else
        Uvarint_loop rest (Z.lor x (uint64 (Z.shiftl (Z.land b 127) s)))
                     (s + 7) (i + 1)
  end.

Definition Uvarint (buf : list Z) : Z * Z := Uvarint_loop buf 0 0 0.

Definition Varint (buf : list Z) : Z * Z :=
  let '(ux, n) := Uvarint buf in
  let x := int64 (Z.shiftr ux 1) in
  let x := if Z.land ux 1 =? 0 then x else int64 (Z.lnot x) in
  (x, n).

End Binary.

(** ** unicode/utf8 and fmt *)

Module Utf8.

(** The table [first] of unicode/utf8: [None] for the bytes that make a rune
    of one byte on their own (ASCII, and the invalid lead bytes), otherwise
    the size of the sequence and the range accepted for its second byte. *)
Definition first (c : nat) : option (nat * nat * nat) :=
  if c <? 194 then None
  else if c <? 224 then Some (2, 128, 191)
  else if c =? 224 then Some (3, 160, 191)
  else if c <? 237 then Some (3, 128, 191)
  else if c =? 237 then Some (3, 128, 159)
  else if c <? 240 then Some (3, 128, 191)
  else if c =? 240 then Some (4, 144, 191)
  else if c <? 244 then Some (4, 128, 191)
  else if c =? 244 then Some (4, 128, 143)
  else None.

Definition outside (c : ascii) (lo hi : nat) : bool :=
  (nat_of_ascii c <? lo) || (hi <? nat_of_ascii c).

(** [RuneCountInString]: every well-formed sequence counts once, every
    other byte counts once on its own. *)
Fixpoint RuneCountInString (s : string) : nat :=
  match s with
  | EmptyString => 0
  | String c r1 =>
      S (match first (nat_of_ascii c) with
         | None => RuneCountInString r1
         | Some (size, lo, hi) =>
             if String.length s <? size then RuneCountInString r1
             else match r1 with
             | EmptyString => RuneCountInString r1
             | String c1 r2 =>
                 if outside c1 lo hi then RuneCountInString r1
                 else if size =? 2 then RuneCountInString r2
                 else match r2 with
                 | EmptyString => RuneCountInString r1
                 | String c2 r3 =>
                     if outside c2 128 191 then RuneCountInString r1
                     else if size =? 3 then RuneCountInString r3
                     else match r3 with
                     | EmptyString => RuneCountInString r1
                     | String c3 r4 =>
                         if outside c3 128 191 then RuneCountInString r1
                         else RuneCountInString r4
                     end
                 end
             end
         end)
  end.

End Utf8.

Module Fmt.

Fixpoint writePadding (n : nat) (padByte : ascii) (s : string) : string :=
  match n with
  | O => s
  | S n' => String padByte (writePadding n' padByte s)
  end.

(** [fmt.Sprintf("%04s", s)]: the width counts runes, and the flag [0] makes
    the padding byte ['0'], for strings as for numbers. *)
Definition Sprintf_04s (s : string) : string :=
  writePadding (4 - Utf8.RuneCountInString s) "0"%char s.

(** [fmt.Sprintf("%d", x)]: the decimal digits, after a minus sign below
    zero. *)
Definition Sprintf_d (x : Z) : string := NilZero.string_of_int (Z.to_int x).

End Fmt.

(** ** KeySharder *)

(** A slice expression [s[lo:hi]]; [None] is the run-time panic for bounds
    out of range. *)
Definition slice (s : string) (lo hi : nat) : option string :=
  if (lo <=? hi) && (hi <=? String.length s)
  then Some (substring lo (hi - lo) s)
  else None.

Definition transformFunc (s : string) : option (list string) :=
  if String.eqb s "_next_id" then Some []
  else
    data ← (if String.length s <? 4 then Some (Fmt.Sprintf_04s s)
            else slice s (String.length s - 4) (String.length s));
    seg1 ← slice data 2 4;
    seg2 ← slice data 0 2;
    Some [seg1; seg2].

(** The sharder as section 4.1 of the specification words it for short keys:
    the key is padded on the left with the space character. *)
Definition shard_space_padded (s : string) : option (list string) :=
  let data := Fmt.writePadding (4 - String.length s) " "%char s in
  seg1 ← slice data 2 4;
  seg2 ← slice data 0 2;
  Some [seg1; seg2].

(** ** The underlying store (diskv) *)

(** The store maps keys to byte blobs.  A write can fail: [faults] lists the
    outcome of the writes to come, [Some e] for a write that fails with [e];
    when the list is used up, writes succeed.  A failed write changes
    nothing. *)
Record Diskv : Type := {
  BasePath : string;
  data : gmap string (list Z);
  faults : list (option error)
}.

Definition diskv_New (basePath : string) (disk : gmap string (list Z))
    (fl : list (option error)) : Diskv :=
  {| BasePath := basePath; data := disk; faults := fl |}.

Definition Write (key : string) (val : list Z) (d : Diskv)
    : Diskv * option error :=
  match faults d with
  | Some e :: fl =>
      ({| BasePath := BasePath d; data := data d; faults := fl |}, Some e)
  | None :: fl =>
      ({| BasePath := BasePath d; data := <[key := val]> (data d);
          faults := fl |}, None)
  | [] =>
      ({| BasePath := BasePath d; data := <[key := val]> (data d);
          faults := [] |}, None)
  end.

Definition Read (key : string) (d : Diskv) : list Z * option error :=
  match data d !! key with
  | Some val => (val, None)
  | None => ([], Some (errorString "no such file or directory"))
  end.

Definition Erase (key : string) (d : Diskv) : Diskv * option error :=
  match data d !! key with
  | Some _ =>
      ({| BasePath := BasePath d; data := delete key (data d);
          faults := faults d |}, None)
  | None => (d, Some (errorString "no such file or directory"))
  end.

(** ** Index entries, index logs and index tables *)

Record indexEntry : Type := {
  deleted : bool;
  value : string;
  id : Z;
  fpos : Z
}.

Definition Deleted (entry : indexEntry) : bool := deleted entry.

(** Modelled from the spec: the binary format of an index log and
    [indexEntry.ReadFrom] are not part of [collection.go].  A log is the
    sequence of what successive calls of [ReadFrom] find: an entry encoded
    on [n] bytes, or bytes that do not decode, with the error the decoder
    returns for them.  At the end of the sequence [ReadFrom] returns
    [io.EOF]. *)
Inductive chunk : Type :=
| Rec (del : bool) (val : string) (ident : Z) (n : Z)
| Bad (err : error).

(** Modelled from the spec: the type [index] with [newIndex] and [Add] is
    not part of [collection.go]; section 3 describes the table as a mapping
    from a field value to the set of identifiers, and section 4.4 has [Add]
    insert the mapping of the entry. *)
Record index : Type := {
  field_of : string;
  table : gmap string (gset Z)
}.

Definition newIndex (field : string) : index :=
  {| field_of := field; table := ∅ |}.

Definition lookup_value (idx : index) (v : string) : gset Z :=
  default ∅ (table idx !! v).

Definition Add (idx : index) (entry : indexEntry) : index :=
  {| field_of := field_of idx;
     table := <[value entry := {[id entry]} ∪ lookup_value idx (value entry)]>
                (table idx) |}.

Definition has_mapping (idx : index) (v : string) (i : Z) : bool :=
  bool_decide (i ∈ lookup_value idx v).

(** The loop of [loadIndex] over an open log: [fpos] is the offset
    [file.Seek(0, os.SEEK_CUR)] returns before the read. *)
Fixpoint replay (chunks : list chunk) (fpos : Z) (idx : index)
    : index + error :=
  match chunks with
  | [] => inl idx
  | Bad err :: _ => if is_EOF err then inl idx else inr err
  | Rec del val ident n :: rest =>
      let entry := {| deleted := del; value := val; id := ident; fpos := 0 |} in
      if negb (Deleted entry)
      then replay rest (fpos + n)%Z
             (Add idx {| deleted := deleted entry; value := value entry;
                         id := id entry; fpos := fpos |})
      else replay rest (fpos + n)%Z idx
  end.

(** The replay as section 4.4 of the specification words it: a tombstone
    removes the mapping of its field value and identifier when it is
    there. *)
Definition Remove_mapping (idx : index) (v : string) (i : Z) : index :=
  {| field_of := field_of idx;
     table := <[v := lookup_value idx v ∖ {[i]}]> (table idx) |}.

Fixpoint replay_tombstones (chunks : list chunk) (idx : index)
    : index + error :=
  match chunks with
  | [] => inl idx
  | Bad err :: _ => if is_EOF err then inl idx else inr err
  | Rec del val ident n :: rest =>
      if del then replay_tombstones rest (Remove_mapping idx val ident)
      else replay_tombstones rest
             (Add idx {| deleted := del; value := val; id := ident; fpos := 0 |})
  end.

(** The entries of a log that are not flagged deleted, as pairs. *)
Fixpoint live_pairs (chunks : list chunk) : list (string * Z) :=
  match chunks with
  | [] => []
  | Rec del val ident _ :: rest =>
      if del then live_pairs rest else (val, ident) :: live_pairs rest
  | Bad _ :: _ => []
  end.

Definition is_Rec (c : chunk) : bool :=
  match c with
  | Rec _ _ _ _ => true
  | Bad _ => false
  end.

(** ** The file system of the index logs *)

Inductive node : Type :=
| Directory
| RegularFile (content : list chunk)
| LockedFile (err : error).

(** [info.Mode() & os.ModeType == 0]. *)
Definition is_regular (nd : node) : bool :=
  match nd with
  | Directory => false
  | RegularFile _ | LockedFile _ => true
  end.

Definition is_Directory (nd : node) : bool :=
  match nd with
  | Directory => true
  | RegularFile _ | LockedFile _ => false
  end.

(** The nodes of the file system, each under its key, in the order
    [filepath.Walk] meets them; the keys [os.Remove] is not permitted to
    remove; and the lines written by [log.Printf].  A key is a clean path,
    from the root or from the working directory ([/db/indexes/c],
    [db/indexes/c]); the root, the working directory and the directories
    above it are there without a key.  There are no symbolic links. *)
Record OS : Type := {
  fs : list (string * node);
  sticky : list string;
  logged : list string
}.

Fixpoint lookup_key (key : string) (l : list (string * node)) : option node :=
  match l with
  | [] => None
  | (k, nd) :: rest => if String.eqb k key then Some nd else lookup_key key rest
  end.

(** *** Paths *)

(** The elements of a path, between its slashes: [a//b/] has the elements
    [a], the empty one, [b] and the empty one. *)
Fixpoint components_from (path cur : string) : list string :=
  match path with
  | EmptyString => [cur]
  | String c rest =>
      if Ascii.eqb c "/" then cur :: components_from rest EmptyString
      else components_from rest (cur ++ String c EmptyString)
  end.

Definition components (path : string) : list string :=
  components_from path "".

Definition rooted (path : string) : bool :=
  match path with
  | String c _ => Ascii.eqb c "/"
  | EmptyString => false
  end.

(** The directory reached from the directory [stack] (innermost name first)
    by one element of a path: the empty element and [.] stay, [..] goes up,
    and stays at the root. *)
Definition step (rt : bool) (stack : list string) (comp : string) : list string :=
  if String.eqb comp "" || String.eqb comp "." then stack
  else if String.eqb comp ".." then
    match stack with
    | [] => if rt then [] else [".."]
    | top :: outer => if String.eqb top ".." then ".." :: stack else outer
    end
  else comp :: stack.

Fixpoint join_slash (names : list string) : string :=
  match names with
  | [] => ""
  | [name] => name
  | name :: rest => name ++ "/" ++ join_slash rest
  end.

Definition render (rt : bool) (stack : list string) : string :=
  if rt then "/" ++ join_slash (rev stack)
  else match stack with
       | [] => "."
       | _ => join_slash (rev stack)
       end.

(** [filepath.Clean]: the shortest path with the same elements, worked out
    on the text alone. *)
Definition Clean (path : string) : string :=
  if String.eqb path "" then "."
  else render (rooted path) (fold_left (step (rooted path)) (components path) []).

(** [filepath.Base]: the last element of a path, trailing slashes removed. *)
Fixpoint strip_slashes (path : string) : string :=
  match path with
  | EmptyString => EmptyString
  | String c rest =>
      match strip_slashes rest with
      | EmptyString => if Ascii.eqb c "/" then EmptyString else String c EmptyString
      | rest' => String c rest'
      end
  end.

Fixpoint last_element (path cur : string) : string :=
  match path with
  | EmptyString => cur
  | String c rest =>
      if Ascii.eqb c "/" then last_element rest EmptyString
      else last_element rest (cur ++ String c EmptyString)
  end.

Definition Base (path : string) : string :=
  if String.eqb path "" then "."
  else
    let path := last_element (strip_slashes path) "" in
    if String.eqb path "" then "/" else path.

(** *** Resolution of a path by the system *)

(** The node a directory stack names: the root, the working directory and
    the directories above it are directories, the others are what the file
    system has under their key. *)
Definition node_at (l : list (string * node)) (rt : bool) (stack : list string)
    : option node :=
  match stack with
  | [] => Some Directory
  | top :: _ =>
      if String.eqb top ".." then Some Directory
      else lookup_key (render rt stack) l
  end.

Definition dir_at (l : list (string * node)) (rt : bool) (stack : list string)
    : bool :=
  match node_at l rt stack with
  | Some nd => is_Directory nd
  | None => false
  end.

(** The system follows a path one element at a time, and every element,
    also an empty one and [.], is looked up in a node that must be a
    directory.  The node the last element names need not exist. *)
Fixpoint resolve_from (l : list (string * node)) (rt : bool)
    (stack : list string) (comps : list string) : option (list string) :=
  match comps with
  | [] => Some stack
  | comp :: rest =>
      if dir_at l rt stack then resolve_from l rt (step rt stack comp) rest
      else None
  end.

Definition resolve (l : list (string * node)) (path : string)
    : option (list string) :=
  if String.eqb path "" then None
  else resolve_from l (rooted path) [] (components path).

(** The key of the node a path names, and the node ([os.Lstat]). *)
Definition key_of (path : string) (w : OS) : option string :=
  render (rooted path) <$> resolve (fs w) path.

Definition stat (path : string) (w : OS) : option node :=
  stack ← resolve (fs w) path; node_at (fs w) (rooted path) stack.

Definition os_Open (path : string) (w : OS) : list chunk + error :=
  match stat path w with
  | Some (RegularFile content) => inl content
  | Some (LockedFile err) => inr err
  | Some Directory => inl [Bad (errorString "is a directory")]
  | None => inr (errorString "no such file or directory")
  end.

(** [os.Mkdir]: trailing slashes do not count; the directory is made when
    the path resolves, which asks for its parent to be a directory, and
    names nothing yet.  In every other case the system returns an error and
    nothing changes. *)
Definition os_Mkdir (path : string) (w : OS) : OS :=
  let path := strip_slashes path in
  match resolve (fs w) path with
  | None => w
  | Some stack =>
      match node_at (fs w) (rooted path) stack with
      | Some _ => w
      | None =>
          {| fs := fs w ++ [(render (rooted path) stack, Directory)];
             sticky := sticky w; logged := logged w |}
      end
  end.

Definition has_entries (key : string) (l : list (string * node)) : bool :=
  existsb (λ kn, String.prefix (key ++ "/") (fst kn)) l.

(** The last element of the path is [.] or [..]. *)
Definition dot_last (path : string) : bool :=
  let last := last_element (strip_slashes path) "" in
  String.eqb last "." || String.eqb last "..".

(** [os.Remove] ([unlink], then [rmdir]): it refuses a path that does not
    resolve or names nothing, a directory named through [.] or [..], a
    directory that has entries, and what the system does not permit. *)
Definition os_Remove (path : string) (w : OS) : OS * option error :=
  match resolve (fs w) path with
  | None => (w, Some (errorString "no such file or directory"))
  | Some stack =>
      let key := render (rooted path) stack in
      match lookup_key key (fs w) with
      | None => (w, Some (errorString "no such file or directory"))
      | Some nd =>
          if is_Directory nd && dot_last path
          then (w, Some (errorString "invalid argument"))
          else if is_Directory nd && has_entries key (fs w)
          then (w, Some (errorString "directory not empty"))
          else if existsb (String.eqb key) (sticky w)
          then (w, Some (errorString "permission denied"))
          else
            ({| fs := List.filter (λ kn, negb (String.eqb (fst kn) key)) (fs w);
                sticky := sticky w; logged := logged w |}, None)
      end
  end.

Definition log_Printf (line : string) (w : OS) : OS :=
  {| fs := fs w; sticky := sticky w; logged := logged w ++ [line] |}.

(** The path of a key below a directory, from that directory. *)
Definition below (dirkey key : string) : option string :=
  let pre := if String.eqb dirkey "/" then "/"
             else if String.eqb dirkey "." then ""
             else dirkey ++ "/" in
  if String.prefix pre key && (String.length pre <? String.length key)
     && (negb (String.eqb dirkey ".")
         || negb (rooted key || String.eqb key ".." || String.prefix "../" key))
  then Some (substring (String.length pre)
               (String.length key - String.length pre) key)
  else None.

(** The calls [filepath.Walk root] makes to its function, each with the path
    and the [FileInfo] it passes: the root, as it was given, with what
    [os.Lstat] finds there, then, when that is a directory, every node below
    it under the joined and cleaned path.  The [FileInfo] is [nil] where
    [os.Lstat] fails. *)
Definition walk_calls (root : string) (w : OS) : list (string * option node) :=
  match stat root w, key_of root w with
  | Some Directory, Some dirkey =>
      (root, Some Directory)
      :: omap (λ kn, rel ← below dirkey (fst kn);
                     Some (Clean (root ++ "/" ++ rel),
                           stat (Clean (root ++ "/" ++ rel)) w))
              (fs w)
  | info, _ => [(root, info)]
  end.

(** The calls that come with a [FileInfo]. *)
Definition Walk (root : string) (w : OS) : list (string * node) :=
  omap (λ call, nd ← snd call; Some (fst call, nd)) (walk_calls root w).

(** The function [loadIndexes] hands to [filepath.Walk] calls [info.Mode()]
    first, so a call with a [nil] [FileInfo] panics: [loadIndexes] and
    [openColl] then do not return, and what is said of their results is said
    where [walk_panics] is false. *)
Definition walk_panics (root : string) (w : OS) : bool :=
  existsb (λ call, negb (bool_decide (is_Some (snd call)))) (walk_calls root w).

(** ** Collections *)

Definition Id : Type := Z.

Record Collection : Type := {
  store : Diskv;
  indexpath : string;
  indexes : gmap string index
}.

(** Modelled from the spec: the type [Database] is not part of
    [collection.go]; [openColl] reads its field [path] only. *)
Record Database : Type := { path : string }.

Definition with_store (c : Collection) (d : Diskv) : Collection :=
  {| store := d; indexpath := indexpath c; indexes := indexes c |}.

Definition with_indexes (c : Collection) (m : gmap string index) : Collection :=
  {| store := store c; indexpath := indexpath c; indexes := m |}.

Definition loadIndex (c : Collection) (w : OS) (filepath field : string)
    : Collection * option error :=
  match os_Open filepath w with
  | inr err => (c, Some err)
  | inl file =>
      match replay file 0 (newIndex field) with
      | inr err => (c, Some err)
      | inl idx => (with_indexes c (<[field := idx]> (indexes c)), None)
      end
  end.

(** The function [loadIndexes] hands to [filepath.Walk]; it always returns
    [nil], so the walk goes on. *)
Definition visit (cw : Collection * OS) (pn : string * node) : Collection * OS :=
  let '(c, w) := cw in
  let '(p, info) := pn in
  if is_regular info then
    match loadIndex c w p (Base p) with
    | (c', Some err) =>
        (c', log_Printf ("loadIndex " ++ p ++ " failed: " ++ Error err) w)
    | (c', None) => (c', w)
    end
  else (c, w).

Definition loadIndexes (c : Collection) (w : OS) : Collection * OS :=
  fold_left visit (Walk (indexpath c) w) (c, w).

Definition setNextId (c : Collection) (next_id : Id) : Collection :=
  let next_id_buf := Binary.PutVarint next_id in
  with_store c (fst (Write "_next_id" next_id_buf (store c))).

Definition getNextId (c : Collection) : Collection * Id :=
  let '(dat, _) := Read "_next_id" (store c) in
  let '(next_id, _) := Binary.Varint dat in
  (setNextId c (Binary.int64 (next_id + 1)), next_id).

Definition openColl (db : Database) (name : string)
    (disk : gmap string (list Z)) (fl : list (option error)) (w : OS)
    : Collection * OS :=
  let coll := {| store := diskv_New (path db ++ "/colls/" ++ name) disk fl;
                 indexpath := path db ++ "/indexes/" ++ name;
                 indexes := ∅ |} in
  let w := os_Mkdir (indexpath coll) w in
  let '(coll, w) := loadIndexes coll w in
  match Read "_next_id" (store coll) with
  | (_, Some _) => (setNextId coll 1%Z, w)
  | (_, None) => (coll, w)
  end.

Section Records.

(** [json.Marshal] on the values of the caller. *)
Context {Value : Type} (Marshal : Value → list Z + error).

Definition Insert (c : Collection) (v : Value)
    : Collection * Id * option error :=
  match Marshal v with
  | inr err => (c, 0%Z, Some err)
  | inl jsondata =>
      let '(c, ident) := getNextId c in
      let '(d, err) := Write (Fmt.Sprintf_d ident) jsondata (store c) in
      let c := with_store c d in
      match err with
      | Some _ => (setNextId c ident, 0%Z, err)
      | None => (c, ident, err)
      end
  end.


(** Successive calls of [Insert], with what each returned. *)
Fixpoint InsertAll (c : Collection) (vs : list Value)
    : Collection * list (Id * option error) :=
  match vs with
  | [] => (c, [])
  | v :: rest =>
      let '(c, ident, err) := Insert c v in
      let '(c, results) := InsertAll c rest in
      (c, (ident, err) :: results)
  end.

End Records.

Definition AddIndex (c : Collection) (field : string)
    : Collection * option error :=
  (c, Some (errorString "adding index failed")).

Definition RemoveIndex (c : Collection) (w : OS) (field : string)
    : Collection * OS * option error :=
  let c := with_indexes c (delete field (indexes c)) in
  match os_Remove (indexpath c ++ "/" ++ field) w with
  | (w, Some err) => (c, w, Some err)
  | (w, None) => (c, w, None)
  end.

Definition Reindex (c : Collection) (w : OS) (field : string)
    : Collection * OS * option error :=
  match RemoveIndex c w field with
  | (c, w, Some err) => (c, w, Some err)
  | (c, w, None) =>
      let '(c, err) := AddIndex c field in (c, w, err)
  end.

Definition Delete (c : Collection) (ident : Id) : Collection * option error :=
  let '(d, err) := Erase (Fmt.Sprintf_d ident) (store c) in
  (with_store c d, err).

(** Modelled from the spec: the types [Condition], [True] and [Result] are
    not part of [collection.go]; section 4.6 lists the conditions, and a
    result is a sequence of identifiers with their records. *)
#[warnings="-register-all"]
Inductive Condition : Type :=
| True_
| Equals (field : string) (val : string)
| Range (field : string) (low high : string)
| And (qs : list Condition)
| Or (qs : list Condition)
| Not (q : Condition).

Definition Result : Type := list (Id * list Z).

Definition Query (c : Collection) (q : Condition)
    : option Result * option error :=
  (None, Some (errorString "query failed")).

Definition QueryAll (c : Collection) : option Result * option error :=
  Query c True_.

Definition Vacuum (c : Collection) : option error := None.

(** The identifiers of the records of a collection: the keys of the store
    other than the metadata key. *)
Definition record_keys (c : Collection) : gset string :=
  dom (data (store c)) ∖ {["_next_id"]}.

(** The number of mappings of a table: the identifiers of every field
    value. *)
Definition num_mappings (idx : index) : nat :=
  map_fold (λ _ ids n, size ids + n) 0 (table idx).

Definition table_of (r : index + error) : index :=
  match r with
  | inl idx => idx
  | inr _ => newIndex ""
  end.

(** The outcome of the [n]-th write to come. *)
Definition fault_at (n : nat) (d : Diskv) : option error :=
  match faults d !! n with
  | Some o => o
  | None => None
  end.

(** What visiting one node of the walk does: nothing for a node that is not
    a regular file, otherwise the index or the error of [loadIndex]. *)
Definition outcome (w : OS) (pn : string * node) : option (index + error) :=
  if is_regular (snd pn) then
    Some (match os_Open (fst pn) w with
          | inr err => inr err
          | inl file => replay file 0 (newIndex (Base (fst pn)))
          end)
  else None.

Definition apply_load (w : OS) (m : gmap string index) (pn : string * node)
    : gmap string index :=
  match outcome w pn with
  | Some (inl idx) => <[Base (fst pn) := idx]> m
  | _ => m
  end.

Definition failure_line (w : OS) (pn : string * node) : list string :=
  match outcome w pn with
  | Some (inr err) => ["loadIndex " ++ fst pn ++ " failed: " ++ Error err]
  | _ => []
  end.

(** The entries of a log flagged deleted. *)
Definition flagged_deleted (c : chunk) : bool :=
  match c with
  | Rec del _ _ _ => del
  | Bad _ => false
  end.

(** ** Sample data *)

(** A collection with the records 1 and 2, whose values are the JSON texts
    of the strings a and b, and the next identifier 3. *)
Definition two_records : Collection :=
  {| store := diskv_New "/db/colls/c"
                {[ "1" := [34; 97; 34]%Z; "2" := [34; 98; 34]%Z;
                   "_next_id" := [6]%Z ]} [];
     indexpath := "/db/indexes/c";
     indexes := ∅ |}.

Definition color_log : list chunk :=
  [Rec false "red" 1 12; Rec false "blue" 2 13; Rec false "red" 3 12].

(** A log cut in the middle of its second entry. *)
Definition size_log : list chunk :=
  [Rec false "xl" 1 11; Bad (errorString "unexpected EOF")].

Definition sample_os : OS :=
  {| fs := [("/db", Directory);
            ("/db/indexes", Directory);
            ("/db/indexes/c", Directory);
            ("/db/indexes/c/color", RegularFile color_log);
            ("/db/indexes/c/size", RegularFile size_log)];
     sticky := ["/db/indexes/c/color"];
     logged := [] |}.

(** The same collection on a store whose second write to come fails. *)
Definition full_disk : Collection :=
  with_store two_records
    {| BasePath := BasePath (store two_records);
       data := data (store two_records);
       faults := [None; Some (errorString "no space left on device")] |}.

(** [json.Marshal] on sample values: a value is the text it is encoded to,
    or none for a value that has no encoding, such as a channel. *)
Definition sample_Marshal (v : option (list Z)) : list Z + error :=
  match v with
  | Some text => inl text
  | None => inr (errorString "json: unsupported type: chan int")
  end.

Definition is_inl {A B : Type} (x : A + B) : bool :=
  match x with
  | inl _ => true
  | inr _ => false
  end.

(** The store after a write: the outcome of that write is used up. *)
Definition after_write (d : Diskv) (m : gmap string (list Z)) : Diskv :=
  {| BasePath := BasePath d; data := m; faults := tail (faults d) |}.

(** A store whose first write to come fails, and one whose second and third
    writes to come fail. *)
Definition counter_stuck : Collection :=
  with_store two_records
    {| BasePath := BasePath (store two_records);
       data := data (store two_records);
       faults := [Some (errorString "input/output error")] |}.

Definition disk_gone : Collection :=
  with_store two_records
    {| BasePath := BasePath (store two_records);
       data := data (store two_records);
       faults := [None; Some (errorString "no space left on device");
                  Some (errorString "input/output error")] |}.

(** * Properties *)

(** ** Variable-length integers: decoding undoes encoding *)

Section BinaryFacts.
Import Binary.
Local Open Scope Z_scope.

Lemma testbit_above (a s n : Z) : 0 <= a < 2 ^ s -> s <= n -> Z.testbit a n = false.
Proof.
  intros Ha Hn. destruct (Z.eq_dec a 0) as [->|Hne]; [apply Z.bits_0|].
  apply Z.bits_above_log2; [lia|].
  apply Z.lt_le_trans with s; [|assumption].
  apply Z.log2_lt_pow2; lia.
Qed.

Lemma lor_shiftl_add (a b s : Z) :
  0 <= s -> 0 <= a < 2 ^ s -> Z.lor a (Z.shiftl b s) = a + b * 2 ^ s.
Proof.
  intros Hs Ha.
  assert (Hland : Z.land a (Z.shiftl b s) = 0).
  { apply Z.bits_inj'; intros n Hn. rewrite Z.land_spec, Z.bits_0.
    destruct (Z.lt_ge_cases n s).
    - rewrite Z.shiftl_spec_low by lia. apply andb_false_r.
    - rewrite (testbit_above a s n) by lia. reflexivity. }
  rewrite <- Z.lxor_lor by assumption.
  rewrite <- Z.add_nocarry_lxor by assumption.
  rewrite Z.shiftl_mul_pow2 by lia. reflexivity.
Qed.

Lemma byte_cont (y : Z) :
  0 <= y -> 128 <= Z.lor (byte y) 128 /\ Z.land (Z.lor (byte y) 128) 127 = y mod 128.
Proof.
  intros Hy. unfold byte.
  assert (Hb : 0 <= y mod 256 < 256) by (apply Z.mod_pos_bound; lia).
  replace (y mod 128) with ((y mod 256) mod 128)
    by (apply Z.mod_mod_divide; exists 2; lia).
  generalize dependent (y mod 256). clear. intros b Hb.
  assert (H : forallb (fun n => let b := Z.of_nat n in
     (128 <=? Z.lor b 128) && (Z.land (Z.lor b 128) 127 =? b mod 128)) (seq 0 256) = true)
    by (vm_compute; reflexivity).
  rewrite forallb_forall in H.
  specialize (H (Z.to_nat b)). rewrite Z2Nat.id in H by lia.
  cbv zeta in H. apply andb_prop in H.
  - destruct H as [H1 H2]. split; lia.
  - apply in_seq. lia.
Qed.

Lemma pow2_7_succ (i : Z) : 0 <= i -> 2 ^ (7 * (i + 1)) = 128 * 2 ^ (7 * i).
Proof.
  intros Hi. replace (7 * (i + 1)) with (7 + 7 * i) by lia.
  rewrite Z.pow_add_r by lia. reflexivity.
Qed.

Lemma Uvarint_PutUvarint_loop (room : nat) :
  forall y acc i,
    0 <= i <= 9 -> 0 <= acc < 2 ^ (7 * i) -> 0 <= y -> y * 2 ^ (7 * i) < 2 ^ 64 ->
    10 <= Z.of_nat room + i ->
    Uvarint_loop (PutUvarint_loop room y) acc (7 * i) i
    = (acc + y * 2 ^ (7 * i), i + Z.of_nat (length (PutUvarint_loop room y))).
Proof.
  induction room as [|room IH]; intros y acc i Hi Hacc Hy Hlt Hroom; [lia|].
  assert (Hp : 0 < 2 ^ (7 * i)) by (apply Z.pow_pos_nonneg; lia).
  cbn [PutUvarint_loop]. destruct (Z.leb_spec 128 y) as [Hge|Hsmall].
  - destruct (byte_cont y Hy) as [Hb1 Hb2].
    cbn [Uvarint_loop length].
    rewrite (proj2 (Z.eqb_neq i (Z.of_nat MaxVarintLen64))) by (unfold MaxVarintLen64; lia).
    rewrite (proj2 (Z.ltb_ge (Z.lor (byte y) 128) 128)) by lia.
    rewrite Hb2. rewrite Z.shiftr_div_pow2 by lia. change (2 ^ 7) with 128.
    assert (Hm : 0 <= y mod 128 < 128) by (apply Z.mod_pos_bound; lia).
    assert (Hd : y = 128 * (y / 128) + y mod 128) by (apply Z.div_mod; lia).
    assert (Hq : 1 <= y / 128) by (apply Z.div_le_lower_bound; lia).
    assert (Hi8 : i <= 8).
    { destruct (Z.le_gt_cases i 8); [assumption|]. replace i with 9 in * by lia.
      change (2 ^ (7 * 9)) with 9223372036854775808 in *.
      change (2 ^ 64) with 18446744073709551616 in *. lia. }
    unfold uint64 at 1.
    rewrite Z.mod_small by (rewrite Z.shiftl_mul_pow2 by lia; nia).
    rewrite lor_shiftl_add by lia.
    replace (7 * i + 7) with (7 * (i + 1)) by lia.
    rewrite IH.
    + rewrite pow2_7_succ by lia. f_equal; [nia|lia].
    + lia.
    + rewrite pow2_7_succ by lia. nia.
    + lia.
    + rewrite pow2_7_succ by lia. nia.
    + lia.
  - cbn [Uvarint_loop length].
    assert (Hby : byte y = y) by (unfold byte; apply Z.mod_small; lia).
    rewrite Hby.
    rewrite (proj2 (Z.eqb_neq i (Z.of_nat MaxVarintLen64))) by (unfold MaxVarintLen64; lia).
    rewrite (proj2 (Z.ltb_lt y 128)) by lia.
    replace ((i =? Z.of_nat MaxVarintLen64 - 1) && (1 <? y)) with false.
    + unfold uint64.
      rewrite Z.mod_small by (rewrite Z.shiftl_mul_pow2 by lia; nia).
      rewrite lor_shiftl_add by lia. reflexivity.
    + symmetry. apply andb_false_iff.
      destruct (Z.eq_dec i 9) as [->|];
        [right|left; apply Z.eqb_neq; unfold MaxVarintLen64; lia].
      change (2 ^ (7 * 9)) with 9223372036854775808 in *.
      change (2 ^ 64) with 18446744073709551616 in *. apply Z.ltb_ge. lia.
Qed.

Lemma Uvarint_PutUvarint (x : Z) :
  0 <= x < 2 ^ 64 ->
  Uvarint (PutUvarint x) = (x, Z.of_nat (length (PutUvarint x))).
Proof.
  intros Hx. unfold Uvarint, PutUvarint.
  pose proof (Uvarint_PutUvarint_loop MaxVarintLen64 x 0 0) as H.
  change (7 * 0) with 0 in H. change (2 ^ 0) with 1 in H.
  rewrite H; [f_equal; lia| lia | lia | lia | lia | unfold MaxVarintLen64; lia].
Qed.

Lemma Varint_PutVarint (x : Z) :
  - 2 ^ 63 <= x < 2 ^ 63 ->
  Varint (PutVarint x) = (x, Z.of_nat (length (PutVarint x))).
Proof.
  intros Hx. unfold Varint, PutVarint.
  change (2 ^ 63) with 9223372036854775808 in *.
  set (ux := if x <? 0 then _ else _).
  assert (Hux : ux = if x <? 0 then - 2 * x - 1 else 2 * x).
  { subst ux. unfold uint64. rewrite Z.shiftl_mul_pow2 by lia.
    change (2 ^ 64) with 18446744073709551616. change (2 ^ 1) with 2.
    unfold Z.lnot. destruct (Z.ltb_spec x 0).
    - rewrite <- Z.sub_1_r.
      replace (x mod 18446744073709551616) with (x + 18446744073709551616)
        by (apply Z.mod_unique with (-1); lia).
      replace ((x + 18446744073709551616) * 2 mod 18446744073709551616)
        with (2 * x + 18446744073709551616)
        by (apply Z.mod_unique with 1; lia).
      symmetry; apply Z.mod_unique with (-1); lia.
    - rewrite (Z.mod_small x) by lia. rewrite Z.mod_small by lia. lia. }
  rewrite Uvarint_PutUvarint by (rewrite Hux; change (2 ^ 64) with 18446744073709551616; destruct (x <? 0) eqn:E; lia).
  f_equal.
  rewrite Z.shiftr_div_pow2 by lia. change (2 ^ 1) with 2.
  rewrite (Z.land_ones ux 1 ltac:(lia) : Z.land ux 1 = ux mod 2 ^ 1). change (2 ^ 1) with 2.
  unfold int64, Z.lnot. change (2 ^ 64) with 18446744073709551616.
  change (2 ^ 63) with 9223372036854775808.
  rewrite Hux. destruct (Z.ltb_spec x 0).
  - replace ((-2 * x - 1) mod 2) with 1 by (apply Z.mod_unique with (- x - 1); lia).
    simpl (1 =? 0).
    replace ((-2 * x - 1) / 2) with (- x - 1) by (apply Z.div_unique with 1; lia).
    rewrite (Z.mod_small (- x - 1 + _)) by lia.
    rewrite <- Z.sub_1_r.
    rewrite Z.mod_small by lia. lia.
  - replace ((2 * x) mod 2) with 0 by (apply Z.mod_unique with x; lia).
    simpl (0 =? 0).
    replace (2 * x / 2) with x by (apply Z.div_unique with 0; lia).
    rewrite Z.mod_small by lia. lia.
Qed.

End BinaryFacts.

(** ** Strings *)

Lemma length_substring (s : string) : ∀ n m,
  n + m ≤ String.length s → String.length (substring n m s) = m.
Proof.
  induction s as [|c s IH]; intros [|n] [|m] H; simpl in *; try lia.
  - f_equal. apply (IH 0 m). lia.
  - apply (IH n 0). lia.
  - apply (IH n (S m)). lia.
Qed.

Lemma slice_Some (s : string) (lo hi : nat) :
  lo ≤ hi → hi ≤ String.length s → slice s lo hi = Some (substring lo (hi - lo) s).
Proof.
  intros H1 H2. unfold slice.
  rewrite (proj2 (Nat.leb_le lo hi) H1), (proj2 (Nat.leb_le hi _) H2). reflexivity.
Qed.

Lemma length_writePadding (n : nat) (c : ascii) (s : string) :
  String.length (Fmt.writePadding n c s) = n + String.length s.
Proof. induction n as [|n IH]; simpl; [reflexivity | rewrite IH; reflexivity]. Qed.

Lemma RuneCount_le_length_aux (n : nat) : ∀ s,
  String.length s ≤ n → Utf8.RuneCountInString s ≤ String.length s.
Proof.
  induction n as [|n IH]; intros s Hn.
  - destruct s; simpl in *; lia.
  - destruct s as [|c r1]; [simpl; lia|].
    assert (H1 : Utf8.RuneCountInString r1 ≤ String.length r1)
      by (apply IH; simpl in Hn; lia).
    cbn [Utf8.RuneCountInString].
    destruct (Utf8.first (nat_of_ascii c)) as [[[size lo] hi]|]; [|simpl; lia].
    destruct (String.length (String c r1) <? size); [simpl; lia|].
    destruct r1 as [|c1 r2]; [simpl; lia|].
    assert (H2 : Utf8.RuneCountInString r2 ≤ String.length r2)
      by (apply IH; simpl in Hn; lia).
    destruct (Utf8.outside c1 lo hi); [simpl in *; lia|].
    destruct (size =? 2); [simpl in *; lia|].
    destruct r2 as [|c2 r3]; [simpl in *; lia|].
    assert (H3 : Utf8.RuneCountInString r3 ≤ String.length r3)
      by (apply IH; simpl in Hn; lia).
    destruct (Utf8.outside c2 128 191); [simpl in *; lia|].
    destruct (size =? 3); [simpl in *; lia|].
    destruct r3 as [|c3 r4]; [simpl in *; lia|].
    assert (H4 : Utf8.RuneCountInString r4 ≤ String.length r4)
      by (apply IH; simpl in Hn; lia).
    destruct (Utf8.outside c3 128 191); simpl in *; lia.
Qed.

Lemma RuneCount_le_length (s : string) :
  Utf8.RuneCountInString s ≤ String.length s.
Proof. apply (RuneCount_le_length_aux (String.length s)). lia. Qed.

Lemma RuneCount_writePadding_0 (n : nat) (s : string) :
  Utf8.RuneCountInString (Fmt.writePadding n "0"%char s)
  = n + Utf8.RuneCountInString s.
Proof.
  induction n as [|n IH]; [reflexivity|].
  cbn [Fmt.writePadding Utf8.RuneCountInString].
  change (Utf8.first (nat_of_ascii "0")) with (@None (nat * nat * nat)).
  rewrite IH. reflexivity.
Qed.

Lemma substring_substring (s : string) : ∀ n m a b,
  a + b ≤ m → substring a b (substring n m s) = substring (n + a) b s.
Proof.
  induction s as [|c s IH]; intros n m a b H.
  - destruct n, m, a, b; reflexivity.
  - destruct n as [|n].
    + destruct m as [|m]; [destruct a, b; try lia; reflexivity|].
      destruct a as [|a]; destruct b as [|b]; cbn [substring Nat.add]; try reflexivity.
      * f_equal. apply (IH 0 m 0 b). lia.
      * apply (IH 0 m a 0). lia.
      * apply (IH 0 m a (S b)). lia.
    + cbn [substring Nat.add]. apply IH. exact H.
Qed.

(** ** The sharder *)

Lemma eqb_next_id_long (s : string) :
  s ≠ "_next_id" → String.eqb s "_next_id" = false.
Proof. intros H. apply String.eqb_neq. exact H. Qed.

Lemma eqb_next_id_short (s : string) :
  String.length s < 4 → String.eqb s "_next_id" = false.
Proof. intros H. apply String.eqb_neq. intros ->. simpl in H. lia. Qed.

Lemma two_segments (d : string) :
  4 ≤ String.length d →
  (seg1 ← slice d 2 4; seg2 ← slice d 0 2; Some [seg1; seg2])
  = Some [substring 2 2 d; substring 0 2 d].
Proof.
  intros H. rewrite (slice_Some d 2 4), (slice_Some d 0 2) by lia. reflexivity.
Qed.

(** C6: the metadata key has no path segment; every other key of at least
    four bytes has two segments of two bytes taken from its last four bytes,
    the last two bytes first. *)
Theorem transformFunc_last4 (s : string) :
  s ≠ "_next_id" → 4 ≤ String.length s →
  let last4 := substring (String.length s - 4) 4 s in
  transformFunc "_next_id" = Some []
  ∧ String.length last4 = 4
  ∧ transformFunc s = Some [substring 2 2 last4; substring 0 2 last4]
  ∧ String.length (substring 2 2 last4) = 2
  ∧ String.length (substring 0 2 last4) = 2
  ∧ substring 2 2 last4 = substring (String.length s - 2) 2 s.
Proof.
  intros Hne Hlen last4.
  assert (H4 : String.length last4 = 4) by (apply length_substring; lia).
  split; [reflexivity|]. split; [exact H4|]. split; [|split; [|split]].
  - unfold transformFunc. rewrite (eqb_next_id_long s Hne).
    rewrite (proj2 (Nat.ltb_ge _ _) Hlen).
    rewrite slice_Some by lia.
    replace (String.length s - (String.length s - 4)) with 4 by lia.
    cbn [mbind option_bind]. apply two_segments. fold last4. lia.
  - apply length_substring. lia.
  - apply length_substring. lia.
  - unfold last4. rewrite substring_substring by lia. f_equal. lia.
Qed.

Lemma transformFunc_last4_witness :
  "12345" ≠ "_next_id" ∧ 4 ≤ String.length "12345"
  ∧ transformFunc "12345" = Some ["45"; "23"].
Proof.
  assert (Hne : "12345" ≠ "_next_id") by discriminate.
  assert (Hlen : 4 ≤ String.length "12345") by (simpl; lia).
  split; [exact Hne|]. split; [exact Hlen|].
  exact (proj1 (proj2 (proj2 (transformFunc_last4 "12345" Hne Hlen)))).
Defined.

(** C7, as the specification has it, fails: the key ["ab"] is not sharded as
    the key padded with spaces. *)
Lemma transformFunc_pads_with_zeros :
  transformFunc "ab" = Some ["ab"; "00"]
  ∧ shard_space_padded "ab" = Some ["ab"; "  "]
  ∧ transformFunc "ab" ≠ shard_space_padded "ab".
Proof. split; [reflexivity|]. split; [reflexivity|]. discriminate. Qed.

(** C7, amended: a key shorter than four bytes is padded on the left with
    the character 0 up to four runes, which are four bytes when every byte
    of the key is a rune, and the two segments are bytes 2 to 4 and 0 to 2
    of the padded key. *)
Theorem transformFunc_short_key (s : string) :
  String.length s < 4 →
  let padded := Fmt.writePadding (4 - Utf8.RuneCountInString s) "0"%char s in
  transformFunc s = Some [substring 2 2 padded; substring 0 2 padded]
  ∧ Utf8.RuneCountInString padded = 4
  ∧ (Utf8.RuneCountInString s = String.length s → String.length padded = 4).
Proof.
  intros Hlen padded. pose proof (RuneCount_le_length s) as Hrc.
  split; [|split].
  - unfold transformFunc. rewrite (eqb_next_id_short s Hlen).
    rewrite (proj2 (Nat.ltb_lt _ _) Hlen). cbn [mbind option_bind].
    apply two_segments. unfold padded, Fmt.Sprintf_04s.
    rewrite length_writePadding. lia.
  - unfold padded. rewrite RuneCount_writePadding_0. lia.
  - intros Hascii. unfold padded. rewrite length_writePadding. lia.
Qed.

Lemma transformFunc_short_key_witness :
  String.length "7" < 4 ∧ transformFunc "7" = Some ["07"; "00"].
Proof.
  assert (Hlen : String.length "7" < 4) by (simpl; lia).
  split; [exact Hlen|].
  exact (proj1 (transformFunc_short_key "7" Hlen)).
Defined.

(** ** Replay of an index log *)

(** C1, as the specification has it, fails: replayed by [loadIndex], a log
    with an entry for red and 1 followed by a tombstone for red and 1 still
    maps red to 1, where the replay of section 4.4 has removed it. *)
Lemma replay_keeps_tombstoned_mapping :
  let log := [Rec false "red" 1 10; Rec true "red" 1 10] in
  has_mapping (table_of (replay log 0 (newIndex "color"))) "red" 1 = true
  ∧ has_mapping (table_of (replay_tombstones log (newIndex "color"))) "red" 1 = false.
Proof. split; vm_compute; reflexivity. Qed.

Lemma lookup_value_Add (idx : index) (e : indexEntry) (v : string) :
  lookup_value (Add idx e) v
  = if decide (value e = v) then {[id e]} ∪ lookup_value idx v
    else lookup_value idx v.
Proof.
  unfold lookup_value at 1. cbn [Add table].
  rewrite lookup_insert. destruct (decide (value e = v)) as [->|]; reflexivity.
Qed.

Lemma num_mappings_Add (idx : index) (e : indexEntry) :
  id e ∉ lookup_value idx (value e) →
  num_mappings (Add idx e) = S (num_mappings idx).
Proof.
  intros Hfresh. unfold num_mappings. cbn [Add table].
  set (f := λ (_ : string) (ids : gset Z) (n : nat), size ids + n).
  assert (Hsz : size ({[id e]} ∪ lookup_value idx (value e))
                = S (size (lookup_value idx (value e)))).
  { rewrite size_union by set_solver. rewrite size_singleton. reflexivity. }
  unfold lookup_value in *.
  destruct (table idx !! value e) as [ids|] eqn:Hl; cbn [default] in *.
  - rewrite <- (insert_delete_eq (table idx)).
    rewrite <- (insert_delete_id (table idx) (value e) ids Hl) at 2.
    rewrite !map_fold_insert_L
      by first [apply lookup_delete_eq | intros; unfold f; lia].
    change (Datatypes.id ids) with ids in *. unfold f. lia.
  - rewrite map_fold_insert_L by first [assumption | intros; unfold f; lia]. unfold f. rewrite Hsz, size_empty. lia.
Qed.

Lemma replay_live (chunks : list chunk) :
  Forall (λ c, is_Rec c = true) chunks →
  ∀ (fpos : Z) (idx : index), ∃ idx',
    replay chunks fpos idx = inl idx'
    ∧ field_of idx' = field_of idx
    ∧ (∀ v i, i ∈ lookup_value idx' v ↔
              (v, i) ∈ live_pairs chunks ∨ i ∈ lookup_value idx v)
    ∧ (NoDup (live_pairs chunks) →
       (∀ v i, (v, i) ∈ live_pairs chunks → i ∉ lookup_value idx v) →
       num_mappings idx' = length (live_pairs chunks) + num_mappings idx).
Proof.
  induction 1 as [|c chunks Hc _ IH]; intros fpos idx.
  - exists idx. cbn [replay live_pairs]. repeat split; try tauto.
    + intros [H|H]; [inversion H | exact H].
  - destruct c as [del val ident n|err]; [|discriminate Hc].
    cbn [replay live_pairs Deleted deleted value id]. destruct del; cbn [negb].
    + apply IH.
    + set (e := {| deleted := false; value := val; id := ident; fpos := fpos |}).
      destruct (IH (fpos + n)%Z (Add idx e)) as (idx' & Hr & Hf & Hmem & Hnum).
      exists idx'. split; [exact Hr|]. split; [exact Hf|]. split.
      * intros v i. rewrite Hmem, lookup_value_Add, elem_of_cons.
        cbn [value id e]. destruct (decide (val = v)) as [->|Hne].
        -- rewrite elem_of_union, elem_of_singleton. split.
           ++ intros [H|[->|H]]; auto.
           ++ intros [[[= ->]|H]|H]; auto.
        -- split; [tauto|]. intros [[[= -> ->]|H]|H]; [congruence|auto..].
      * intros Hnd Hfresh. apply NoDup_cons in Hnd as [Hnotin Hnd].
        rewrite Hnum.
        -- rewrite num_mappings_Add; [cbn [length]; lia|].
           apply Hfresh. left.
        -- exact Hnd.
        -- intros v i Hin. rewrite lookup_value_Add. cbn [value id e].
           destruct (decide (val = v)) as [->|Hne].
           ++ rewrite elem_of_union, elem_of_singleton. intros [->|H].
              ** contradiction.
              ** revert H. apply Hfresh. right. exact Hin.
           ++ apply Hfresh. right. exact Hin.
Qed.

Lemma num_mappings_newIndex (field : string) : num_mappings (newIndex field) = 0.
Proof. unfold num_mappings, newIndex. cbn [table]. apply map_fold_empty. Qed.

Lemma lookup_value_newIndex (field v : string) : lookup_value (newIndex field) v = ∅.
Proof. unfold lookup_value, newIndex. cbn [table]. rewrite lookup_empty. reflexivity. Qed.

Lemma live_pairs_no_tombstone (file : list chunk) :
  Forall (λ ch, is_Rec ch = true) file →
  Forall (λ ch, flagged_deleted ch = false) file →
  length (live_pairs file) = length file.
Proof.
  induction 1 as [|ch file Hch _ IH]; intros Hdel; [reflexivity|].
  apply Forall_cons in Hdel as [Hd Hdel].
  destruct ch as [del val ident n|]; [|discriminate Hch].
  cbn in Hd. subst del. cbn [live_pairs length]. rewrite IH by exact Hdel.
  reflexivity.
Qed.

(** C1, amended: replayed by [loadIndex], a log of well-formed entries gives
    the table that maps a field value to an identifier exactly when the log
    has an entry for them that is not flagged deleted; an entry flagged
    deleted is skipped and removes nothing.  When these entries are pairwise
    different the table has as many mappings as there are such entries, so
    N entries and no tombstone give N mappings. *)
Theorem loadIndex_live_entries (c : Collection) (w : OS)
    (filepath field : string) (file : list chunk) :
  os_Open filepath w = inl file →
  Forall (λ ch, is_Rec ch = true) file →
  ∃ idx,
    loadIndex c w filepath field
    = (with_indexes c (<[field := idx]> (indexes c)), None)
    ∧ replay file 0 (newIndex field) = inl idx
    ∧ (∀ v i, i ∈ lookup_value idx v ↔ (v, i) ∈ live_pairs file)
    ∧ (NoDup (live_pairs file) → num_mappings idx = length (live_pairs file))
    ∧ (NoDup (live_pairs file) →
       Forall (λ ch, flagged_deleted ch = false) file →
       num_mappings idx = length file).
Proof.
  intros Hopen Hfile.
  destruct (replay_live file Hfile 0%Z (newIndex field))
    as (idx & Hr & _ & Hmem & Hnum).
  assert (Hcount : NoDup (live_pairs file) →
                   num_mappings idx = length (live_pairs file)).
  { intros Hnd. rewrite Hnum, num_mappings_newIndex; [lia|exact Hnd|].
    intros v i _. rewrite lookup_value_newIndex. apply not_elem_of_empty. }
  exists idx. split; [|split; [exact Hr|split; [|split]]].
  - unfold loadIndex. rewrite Hopen, Hr. reflexivity.
  - intros v i. rewrite Hmem, lookup_value_newIndex. split.
    + intros [H|H]; [exact H|]. exfalso. revert H. apply not_elem_of_empty.
    + intros H. left. exact H.
  - exact Hcount.
  - intros Hnd Hdel. rewrite Hcount by exact Hnd.
    apply live_pairs_no_tombstone; assumption.
Qed.

Lemma loadIndex_live_entries_witness :
  os_Open "/db/indexes/c/color" sample_os = inl color_log
  ∧ Forall (λ ch, is_Rec ch = true) color_log
  ∧ ∃ idx,
      loadIndex two_records sample_os "/db/indexes/c/color" "color"
      = (with_indexes two_records (<["color" := idx]> (indexes two_records)), None)
      ∧ num_mappings idx = 3.
Proof.
  assert (Hopen : os_Open "/db/indexes/c/color" sample_os = inl color_log)
    by reflexivity.
  assert (Hfile : Forall (λ ch, is_Rec ch = true) color_log)
    by (repeat constructor).
  split; [exact Hopen|]. split; [exact Hfile|].
  destruct (loadIndex_live_entries two_records sample_os
              "/db/indexes/c/color" "color" color_log Hopen Hfile)
    as (idx & Hload & _ & _ & _ & Hn).
  exists idx. split; [exact Hload|].
  apply Hn.
  - apply (bool_decide_unpack _). vm_compute. exact I.
  - repeat constructor.
Defined.

(** ** Loading the indexes of a collection *)


Lemma visit_outcome (c : Collection) (w : OS) (pn : string * node) :
  visit (c, w) pn
  = (with_indexes c (apply_load w (indexes c) pn),
     {| fs := fs w; sticky := sticky w;
        logged := logged w ++ failure_line w pn |}).
Proof.
  destruct c as [st ip ix], w as [f s lg], pn as [p nd].
  unfold visit, apply_load, failure_line, outcome, loadIndex, with_indexes, log_Printf.
  cbn [fst snd store indexpath indexes fs sticky logged].
  destruct (is_regular nd); [|rewrite app_nil_r; reflexivity].
  destruct (os_Open p _) as [file|err]; [|reflexivity].
  destruct (replay file 0 _) as [idx|err]; [|reflexivity].
  rewrite app_nil_r. reflexivity.
Qed.

Lemma fold_visit (l : list (string * node)) : ∀ (c : Collection) (w : OS),
  fold_left visit l (c, w)
  = (with_indexes c (fold_left (apply_load w) l (indexes c)),
     {| fs := fs w; sticky := sticky w;
        logged := logged w ++ (l ≫= failure_line w) |}).
Proof.
  induction l as [|pn l IH]; intros c w.
  - cbn. rewrite app_nil_r. destruct c, w; reflexivity.
  - cbn [fold_left]. rewrite visit_outcome, IH.
    cbn [with_indexes indexes store indexpath fs sticky logged].
    rewrite <- app_assoc. reflexivity.
Qed.









(** ** The identifier allocator *)

Lemma Sprintf_d_not_next_id (x : Z) : Fmt.Sprintf_d x ≠ "_next_id".
Proof.
  unfold Fmt.Sprintf_d, NilZero.string_of_int.
  destruct (Z.to_int x) as [d|d]; [|discriminate].
  unfold NilZero.string_of_uint. destruct d; discriminate.
Qed.

Lemma Varint_range (buf : list Z) :
  (- 2 ^ 63 <= fst (Binary.Varint buf) < 2 ^ 63)%Z.
Proof.
  unfold Binary.Varint. destruct (Binary.Uvarint buf) as [ux n].
  assert (H : ∀ y, (- 2 ^ 63 <= Binary.int64 y < 2 ^ 63)%Z).
  { intros y. unfold Binary.int64.
    pose proof (Z.mod_pos_bound (y + 2 ^ 63) (2 ^ 64) eq_refl).
    change (2 ^ 64)%Z with (2 * 2 ^ 63)%Z in *. lia. }
  cbn [fst]. destruct (_ =? _)%Z; apply H.
Qed.

Lemma Varint_PutVarint_fst (x : Z) :
  (- 2 ^ 63 <= x < 2 ^ 63)%Z → fst (Binary.Varint (Binary.PutVarint x)) = x.
Proof. intros Hx. rewrite Varint_PutVarint by exact Hx. reflexivity. Qed.

Lemma getNextId_eq (c : Collection) :
  getNextId c
  = (setNextId c (Binary.int64
                    (fst (Binary.Varint (fst (Read "_next_id" (store c)))) + 1)),
     fst (Binary.Varint (fst (Read "_next_id" (store c))))).
Proof.
  unfold getNextId. destruct (Read "_next_id" (store c)) as [dat e].
  cbn [fst]. destruct (Binary.Varint dat) as [next_id n]. reflexivity.
Qed.

Lemma Read_counter (c : Collection) (buf : list Z) :
  data (store c) !! "_next_id" = Some buf →
  Read "_next_id" (store c) = (buf, None).
Proof. intros H. unfold Read. rewrite H. reflexivity. Qed.

Section RecordFacts.

Context {Value : Type} (Marshal : Value → list Z + error).

(** C10: for a value that [json.Marshal] refuses, [Insert] returns the
    identifier 0 and the error of [json.Marshal], and the collection, with
    its counter and its records, is as it was. *)
Theorem Insert_marshal_error (c : Collection) (v : Value) (err : error) :
  Marshal v = inr err →
  Insert Marshal c v = (c, 0%Z, Some err)
  ∧ data (store (fst (fst (Insert Marshal c v)))) = data (store c).
Proof.
  intros Hm. unfold Insert. rewrite Hm. split; reflexivity.
Qed.

(** C4, amended: when the write of the record fails and the store accepts
    the write of the rollback that follows it, [Insert] returns the identifier 0 with the error of the failed
    write, the counter of the store is the identifier that had been
    allocated, the next allocation returns that identifier again, and no
    other key of the store has changed. *)
Theorem Insert_rollback (c : Collection) (v : Value) (jsondata : list Z)
    (err : error) :
  Marshal v = inl jsondata →
  fault_at 1 (store c) = Some err →
  fault_at 2 (store c) = None →
  let ident := fst (Binary.Varint (fst (Read "_next_id" (store c)))) in
  let c' := fst (fst (Insert Marshal c v)) in
  snd (getNextId c) = ident
  ∧ snd (fst (Insert Marshal c v)) = 0%Z
  ∧ snd (Insert Marshal c v) = Some err
  ∧ Read "_next_id" (store c') = (Binary.PutVarint ident, None)
  ∧ snd (getNextId c') = ident
  ∧ data (store c') = <["_next_id" := Binary.PutVarint ident]> (data (store c)).
Proof.
  intros Hm H1 H2 ident c'.
  assert (Hdata : snd (fst (Insert Marshal c v)) = 0%Z
                  ∧ snd (Insert Marshal c v) = Some err
                  ∧ data (store c')
                    = <["_next_id" := Binary.PutVarint ident]> (data (store c))).
  { subst c'. unfold Insert. rewrite Hm, getNextId_eq. fold ident.
    unfold setNextId, Write, with_store, fault_at in *.
    cbn [store indexpath indexes fst snd data faults BasePath] in *.
    destruct (faults (store c)) as [|o1 [|o2 [|o3 rest]]];
      cbn [lookup list_lookup] in *; try discriminate;
      subst; destruct o1;
      cbn [store indexpath indexes fst snd data faults BasePath];
      repeat split; try reflexivity; apply insert_insert_eq. }
  destruct Hdata as (Hid & Herr & Hdata).
  assert (Hread : Read "_next_id" (store c') = (Binary.PutVarint ident, None)).
  { apply Read_counter. rewrite Hdata. apply lookup_insert_eq. }
  split; [rewrite getNextId_eq; reflexivity|].
  split; [exact Hid|]. split; [exact Herr|]. split; [exact Hread|].
  split; [|exact Hdata].
  rewrite getNextId_eq, Hread. cbn [fst snd].
  apply Varint_PutVarint_fst. apply Varint_range.
Qed.

End RecordFacts.

Lemma Insert_rollback_witness :
  sample_Marshal (Some [34; 99; 34]%Z) = inl [34; 99; 34]%Z
  ∧ fault_at 1 (store full_disk) = Some (errorString "no space left on device")
  ∧ fault_at 2 (store full_disk) = None
  ∧ snd (getNextId full_disk) = 3%Z
  ∧ snd (Insert sample_Marshal full_disk (Some [34; 99; 34]%Z))
    = Some (errorString "no space left on device")
  ∧ snd (getNextId (fst (fst (Insert sample_Marshal full_disk
                                 (Some [34; 99; 34]%Z))))) = 3%Z.
Proof.
  destruct (Insert_rollback sample_Marshal full_disk (Some [34; 99; 34]%Z)
              [34; 99; 34]%Z (errorString "no space left on device")
              eq_refl eq_refl eq_refl)
    as (Hid & _ & Herr & _ & Hnext & _).
  split; [reflexivity|]. split; [reflexivity|]. split; [reflexivity|].
  split; [reflexivity|]. split; [exact Herr|].
  rewrite Hnext. reflexivity.
Defined.

(** C4, as the specification has it, fails: on a store that refuses the
    write of the record and the write after it, [Insert] allocates the
    identifier 3 and returns an error, and the next allocation returns 4:
    [setNextId] has dropped the error of the rollback. *)
Lemma Insert_rollback_not_persisted :
  let v := Some [34; 99; 34]%Z in
  snd (getNextId disk_gone) = 3%Z
  ∧ Insert sample_Marshal disk_gone v
    = (fst (fst (Insert sample_Marshal disk_gone v)), 0%Z,
       Some (errorString "no space left on device"))
  ∧ snd (getNextId (fst (fst (Insert sample_Marshal disk_gone v)))) = 4%Z
  ∧ snd (getNextId (fst (fst (Insert sample_Marshal disk_gone v))))
    ≠ snd (getNextId disk_gone).
Proof.
  intros v. split; [reflexivity|]. split; [reflexivity|].
  split; [reflexivity|]. vm_compute. discriminate.
Qed.

Lemma Insert_marshal_error_witness :
  sample_Marshal None = inr (errorString "json: unsupported type: chan int")
  ∧ Insert sample_Marshal two_records None
    = (two_records, 0%Z, Some (errorString "json: unsupported type: chan int")).
Proof.
  split; [reflexivity|].
  exact (proj1 (Insert_marshal_error sample_Marshal two_records None _ eq_refl)).
Defined.


Lemma loadIndexes_store (c : Collection) (w : OS) :
  store (fst (loadIndexes c w)) = store c.
Proof. unfold loadIndexes. rewrite fold_visit. reflexivity. Qed.

Lemma int64_small (x : Z) :
  (- 2 ^ 63 <= x < 2 ^ 63)%Z → Binary.int64 x = x.
Proof.
  intros Hx. unfold Binary.int64.
  change (2 ^ 64)%Z with (2 * 2 ^ 63)%Z. rewrite Z.mod_small by lia. lia.
Qed.

Section AllocatorFacts.

Context {Value : Type} (Marshal : Value → list Z + error).

(** One [Insert] on a store whose writes succeed. *)
Lemma Insert_ok (c : Collection) (v : Value) (k : Z) :
  is_inl (Marshal v) = true →
  data (store c) !! "_next_id" = Some (Binary.PutVarint k) →
  Forall (λ o, o = None) (faults (store c)) →
  (- 2 ^ 63 <= k < 2 ^ 63)%Z →
  ∃ c', Insert Marshal c v = (c', k, None)
        ∧ data (store c') !! "_next_id"
          = Some (Binary.PutVarint (Binary.int64 (k + 1)))
        ∧ Forall (λ o, o = None) (faults (store c')).
Proof.
  intros Hm Hk Hfl Hrange.
  unfold Insert. destruct (Marshal v) as [jsondata|e]; [|discriminate Hm].
  rewrite getNextId_eq, (Read_counter c _ Hk). cbn [fst].
  rewrite (Varint_PutVarint_fst k Hrange).
  unfold setNextId, Write, with_store.
  cbn [store indexpath indexes fst snd data faults BasePath].
  destruct (faults (store c)) as [|o1 fl1].
  - cbn [store indexpath indexes fst snd data faults BasePath].
    eexists. split; [reflexivity|].
    cbn [store indexpath indexes fst snd data faults BasePath]. split.
    + rewrite lookup_insert_ne by apply Sprintf_d_not_next_id.
      apply lookup_insert_eq.
    + constructor.
  - apply Forall_cons in Hfl as [-> Hfl1].
    cbn [store indexpath indexes fst snd data faults BasePath].
    destruct fl1 as [|o2 fl2].
    + eexists. split; [reflexivity|].
      cbn [store indexpath indexes fst snd data faults BasePath]. split.
      * rewrite lookup_insert_ne by apply Sprintf_d_not_next_id.
        apply lookup_insert_eq.
      * constructor.
    + apply Forall_cons in Hfl1 as [-> Hfl2].
      eexists. split; [reflexivity|].
      cbn [store indexpath indexes fst snd data faults BasePath]. split.
      * rewrite lookup_insert_ne by apply Sprintf_d_not_next_id.
        apply lookup_insert_eq.
      * exact Hfl2.
Qed.

Lemma InsertAll_ids (vs : list Value) : ∀ (c : Collection) (k : Z),
  Forall (λ v, is_inl (Marshal v) = true) vs →
  data (store c) !! "_next_id" = Some (Binary.PutVarint k) →
  Forall (λ o, o = None) (faults (store c)) →
  (- 2 ^ 63 <= k)%Z → (k + Z.of_nat (length vs) <= 2 ^ 63)%Z →
  snd (InsertAll Marshal c vs)
  = (λ j, ((k + Z.of_nat j)%Z, None)) <$> seq 0 (length vs).
Proof.
  induction vs as [|v vs IH]; intros c k Hvs Hk Hfl Hlo Hhi; [reflexivity|].
  apply Forall_cons in Hvs as [Hv Hvs].
  cbn [length] in Hhi.
  destruct (Insert_ok c v k Hv Hk Hfl ltac:(lia)) as (c' & Hins & Hk' & Hfl').
  cbn [InsertAll]. rewrite Hins.
  destruct (InsertAll Marshal c' vs) as [c'' results] eqn:Hrest.
  cbn [snd length seq fmap list_fmap]. f_equal; [f_equal; lia|].
  change results with (snd (c'', results)). rewrite <- Hrest.
  destruct vs as [|v' vs'] eqn:Hshape; [reflexivity|]. rewrite <- Hshape in *.
  assert (Hlen : (1 <= Z.of_nat (length vs))%Z) by (rewrite Hshape; cbn [length]; lia).
  rewrite int64_small in Hk' by lia.
  rewrite (IH c' (k + 1)%Z Hvs Hk' Hfl') by lia.
  rewrite <- fmap_S_seq, <- list_fmap_compose.
  apply list_fmap_ext. intros i j _. cbn. f_equal. lia.
Qed.

(** C5, amended: where the walk of the index directory does not panic and
    the store accepts every write, [openColl] on a store that has no key
    ["_next_id"] writes the counter 1 under it, and the calls of [Insert]
    that follow, fewer than 2^63 and each with a value that serializes,
    return the identifiers 1, 2, 3 and so on, every one with no error. *)
Theorem openColl_Insert_ids (db : Database) (name : string)
    (disk : gmap string (list Z)) (fl : list (option error)) (w : OS)
    (vs : list Value) :
  walk_panics (path db ++ "/indexes/" ++ name)
    (os_Mkdir (path db ++ "/indexes/" ++ name) w) = false →
  disk !! "_next_id" = None →
  Forall (λ o, o = None) fl →
  Forall (λ v, is_inl (Marshal v) = true) vs →
  (Z.of_nat (length vs) < 2 ^ 63)%Z →
  let c := fst (openColl db name disk fl w) in
  Read "_next_id" (store c) = (Binary.PutVarint 1, None)
  ∧ Binary.Varint (Binary.PutVarint 1) = (1%Z, 1%Z)
  ∧ snd (InsertAll Marshal c vs)
    = (λ j, (Z.of_nat j, None)) <$> seq 1 (length vs).
Proof.
  intros _ Hdisk Hfl Hvs Hlen c.
  assert (Hc : data (store c) !! "_next_id" = Some (Binary.PutVarint 1)
               ∧ Forall (λ o, o = None) (faults (store c))).
  { subst c. unfold openColl.
    set (coll := {| store := _; indexpath := _; indexes := _ |}).
    pose proof (loadIndexes_store coll (os_Mkdir (indexpath coll) w)) as Hst.
    destruct (loadIndexes coll _) as [c' w']. cbn [fst] in Hst.
    unfold Read. rewrite Hst. cbn [store coll data diskv_New]. rewrite Hdisk.
    cbn [fst]. unfold setNextId, Write, with_store. rewrite Hst.
    cbn [store coll data faults diskv_New fst BasePath].
    destruct fl as [|o fl'].
    - cbn [store data faults]. split; [apply lookup_insert_eq|constructor].
    - apply Forall_cons in Hfl as [-> Hfl']. cbn [store data faults].
      split; [apply lookup_insert_eq|exact Hfl']. }
  destruct Hc as [Hk Hfaults].
  split; [apply Read_counter; exact Hk|]. split; [reflexivity|].
  rewrite (InsertAll_ids vs c 1%Z Hvs Hk Hfaults) by lia.
  rewrite <- fmap_S_seq, <- list_fmap_compose.
  apply list_fmap_ext. intros i j _. cbn. f_equal. lia.
Qed.

End AllocatorFacts.

(** C5, as the specification has it, fails: on a store that refuses the
    second write to come, [openColl] writes the counter 1 and the two calls
    of [Insert] that follow both return the identifier 1 with no error.
    The write of the counter inside the first call failed, [setNextId]
    dropped the error, and nothing was rolled back. *)
Lemma openColl_Insert_ids_repeated :
  let fl := [None; Some (errorString "input/output error")] in
  let c := fst (openColl {| path := "/db" |} "c" ∅ fl sample_os) in
  (∅ : gmap string (list Z)) !! "_next_id" = None
  ∧ Read "_next_id" (store c) = (Binary.PutVarint 1, None)
  ∧ snd (InsertAll sample_Marshal c [Some [34; 97; 34]%Z; Some [34; 98; 34]%Z])
    = [(1%Z, None); (1%Z, None)].
Proof. repeat split; vm_compute; reflexivity. Qed.

Lemma openColl_Insert_ids_witness :
  let vs := [Some [34; 97; 34]%Z; Some [34; 98; 34]%Z; Some [34; 99; 34]%Z] in
  (∅ : gmap string (list Z)) !! "_next_id" = None
  ∧ snd (InsertAll sample_Marshal
           (fst (openColl {| path := "/db" |} "c" ∅ [] sample_os)) vs)
    = [(1%Z, None); (2%Z, None); (3%Z, None)].
Proof.
  intros vs. split; [reflexivity|].
  destruct (openColl_Insert_ids sample_Marshal {| path := "/db" |} "c" ∅ []
              sample_os vs) as (_ & _ & Hids).
  - vm_compute. reflexivity.
  - reflexivity.
  - constructor.
  - repeat constructor.
  - cbn. lia.
  - exact Hids.
Defined.

(** ** Index maintenance and queries *)

Lemma lookup_key_filter_out (key : string) (l : list (string * node)) :
  lookup_key key (List.filter (λ kn, negb (String.eqb (fst kn) key)) l) = None.
Proof.
  induction l as [|[k nd] l IH]; [reflexivity|].
  cbn [List.filter fst]. destruct (String.eqb_spec k key) as [->|Hne]; cbn [negb].
  - exact IH.
  - cbn [lookup_key]. rewrite (proj2 (String.eqb_neq k key) Hne). exact IH.
Qed.

Lemma lookup_key_filter_other (key k : string) (l : list (string * node)) :
  k ≠ key →
  lookup_key k (List.filter (λ kn, negb (String.eqb (fst kn) key)) l)
  = lookup_key k l.
Proof.
  intros Hne. induction l as [|[q nd] l IH]; [reflexivity|].
  cbn [List.filter fst lookup_key].
  destruct (String.eqb_spec q key) as [->|Hq]; cbn [negb].
  - rewrite (proj2 (String.eqb_neq key k)) by congruence. exact IH.
  - cbn [lookup_key]. rewrite IH. reflexivity.
Qed.

(** Removing a node that is not a directory leaves every path resolving as
    before. *)
Lemma dir_at_remove_file (l : list (string * node)) (key : string) (nd : node) :
  lookup_key key l = Some nd → is_Directory nd = false →
  ∀ rt stack,
    dir_at (List.filter (λ kn, negb (String.eqb (fst kn) key)) l) rt stack
    = dir_at l rt stack.
Proof.
  intros Hl Hnd rt stack. unfold dir_at, node_at.
  destruct stack as [|top outer]; [reflexivity|].
  destruct (String.eqb top ".."); [reflexivity|].
  destruct (String.eqb_spec (render rt (top :: outer)) key) as [->|Hne].
  - rewrite lookup_key_filter_out, Hl, Hnd. reflexivity.
  - rewrite lookup_key_filter_other by exact Hne. reflexivity.
Qed.

Lemma resolve_from_ext (l l' : list (string * node)) (rt : bool) :
  (∀ stack, dir_at l' rt stack = dir_at l rt stack) →
  ∀ comps stack, resolve_from l' rt stack comps = resolve_from l rt stack comps.
Proof.
  intros Hdir. induction comps as [|comp comps IH]; intros stack; [reflexivity|].
  cbn [resolve_from]. rewrite Hdir, IH. reflexivity.
Qed.

Lemma stat_regular_key (path : string) (w : OS) (nd : node) :
  stat path w = Some nd → is_regular nd = true →
  ∃ stack, resolve (fs w) path = Some stack
    ∧ key_of path w = Some (render (rooted path) stack)
    ∧ (∀ l, node_at l (rooted path) stack
            = lookup_key (render (rooted path) stack) l)
    ∧ lookup_key (render (rooted path) stack) (fs w) = Some nd.
Proof.
  unfold stat, key_of. destruct (resolve (fs w) path) as [stack|]; [|discriminate].
  cbn [mbind option_bind fmap option_fmap option_map]. intros Hn Hreg.
  exists stack. split; [reflexivity|]. split; [reflexivity|].
  unfold node_at in *. destruct stack as [|top outer].
  - injection Hn as <-. discriminate Hreg.
  - destruct (String.eqb top "..").
    + injection Hn as <-. discriminate Hreg.
    + split; [intros l; reflexivity|exact Hn].
Qed.

Lemma os_Remove_error (path : string) (w w' : OS) (err : error) :
  os_Remove path w = (w', Some err) → w' = w.
Proof.
  unfold os_Remove. destruct (resolve (fs w) path) as [stack|]; [|intros [= <- _]; reflexivity].
  destruct (lookup_key _ (fs w)) as [nd|]; [|intros [= <- _]; reflexivity].
  destruct (is_Directory nd && dot_last path); [intros [= <- _]; reflexivity|].
  destruct (is_Directory nd && has_entries _ (fs w)); [intros [= <- _]; reflexivity|].
  destruct (existsb _ (sticky w)); [intros [= <- _]; reflexivity|].
  intros [=].
Qed.

(** C9: [RemoveIndex] first deletes the table of the field from the
    collection and then removes the log.  When the path of the log names a
    regular file that the system lets go, [RemoveIndex] returns no error,
    the log is gone and every other node is still there.  When [os.Remove]
    fails, [RemoveIndex] returns its error and no file has changed.  Either
    way the table of the field is no longer in the collection. *)
Theorem RemoveIndex_table_then_log (c : Collection) (w : OS) (field : string) :
  let logfile := indexpath c ++ "/" ++ field in
  let r := RemoveIndex c w field in
  fst (fst r) = with_indexes c (delete field (indexes c))
  ∧ indexes (fst (fst r)) !! field = None
  ∧ snd r = snd (os_Remove logfile w)
  ∧ (∀ key nd,
       key_of logfile w = Some key → stat logfile w = Some nd →
       is_regular nd = true → existsb (String.eqb key) (sticky w) = false →
       snd r = None
       ∧ stat logfile (snd (fst r)) = None
       ∧ lookup_key key (fs (snd (fst r))) = None
       ∧ ∀ k, k ≠ key → lookup_key k (fs (snd (fst r))) = lookup_key k (fs w))
  ∧ (∀ err, snd r = Some err → snd (fst r) = w).
Proof.
  intros logfile r.
  assert (Hr : r = (with_indexes c (delete field (indexes c)),
                    fst (os_Remove logfile w), snd (os_Remove logfile w))).
  { subst r. unfold RemoveIndex.
    change (indexpath (with_indexes c (delete field (indexes c)))) with (indexpath c).
    fold logfile. destruct (os_Remove logfile w) as [w' [err|]]; reflexivity. }
  rewrite Hr. cbn [fst snd indexes with_indexes].
  split; [reflexivity|]. split; [apply lookup_delete_eq|]. split; [reflexivity|].
  split.
  - intros key nd Hkey Hstat Hreg Hperm.
    destruct (stat_regular_key logfile w nd Hstat Hreg)
      as (stack & Hres & Hkey' & Hnode & Hl).
    rewrite Hkey in Hkey'. injection Hkey' as ->.
    assert (Hdir : is_Directory nd = false) by (destruct nd; [discriminate Hreg|reflexivity..]).
    assert (Hrm : os_Remove logfile w
                  = ({| fs := List.filter
                                (λ kn, negb (String.eqb (fst kn)
                                               (render (rooted logfile) stack)))
                                (fs w);
                        sticky := sticky w; logged := logged w |}, None)).
    { unfold os_Remove. rewrite Hres, Hl, Hdir, Hperm. reflexivity. }
    rewrite Hrm. cbn [fst snd fs].
    split; [reflexivity|]. split; [|split].
    + unfold stat. cbn [fs]. unfold resolve in *.
      destruct (String.eqb logfile ""); [discriminate Hres|].
      rewrite (resolve_from_ext (fs w) _ (rooted logfile)
                 (dir_at_remove_file (fs w) _ nd Hl Hdir (rooted logfile))).
      rewrite Hres. cbn [mbind option_bind]. rewrite Hnode.
      apply lookup_key_filter_out.
    + apply lookup_key_filter_out.
    + intros k Hk. apply lookup_key_filter_other. exact Hk.
  - intros err Herr.
    destruct (os_Remove logfile w) as [w' e] eqn:Hrm. cbn [fst snd] in *.
    subst e. exact (os_Remove_error _ _ _ _ Hrm).
Qed.

Lemma RemoveIndex_table_then_log_witness :
  let c := fst (openColl {| path := "/db" |} "c" ∅ [] sample_os) in
  indexes c !! "color" = Some (table_of (replay color_log 0 (newIndex "color")))
  ∧ stat (indexpath c ++ "/" ++ "size") sample_os = Some (RegularFile size_log)
  ∧ snd (RemoveIndex c sample_os "size") = None
  ∧ stat (indexpath c ++ "/" ++ "size") (snd (fst (RemoveIndex c sample_os "size")))
    = None
  ∧ snd (RemoveIndex c sample_os "color") = Some (errorString "permission denied")
  ∧ snd (fst (RemoveIndex c sample_os "color")) = sample_os
  ∧ indexes (fst (fst (RemoveIndex c sample_os "color"))) !! "color" = None.
Proof.
  intros c.
  destruct (RemoveIndex_table_then_log c sample_os "size")
    as (_ & _ & _ & Hok & _).
  destruct (Hok "/db/indexes/c/size" (RegularFile size_log))
    as (Hnil & Hgone & _); [vm_compute; reflexivity..|].
  destruct (RemoveIndex_table_then_log c sample_os "color")
    as (_ & Habsent & Herr & _ & Hsame).
  split; [vm_compute; reflexivity|]. split; [vm_compute; reflexivity|].
  split; [exact Hnil|]. split; [exact Hgone|].
  assert (He : snd (RemoveIndex c sample_os "color")
               = Some (errorString "permission denied"))
    by (rewrite Herr; vm_compute; reflexivity).
  split; [exact He|]. split; [exact (Hsame _ He)|exact Habsent].
Defined.

(** C2, as the specification has it, fails: on the collection with the
    records 1 and 2, [QueryAll] returns no result. *)
Lemma QueryAll_two_records_fails :
  record_keys two_records = {["1"; "2"]}
  ∧ ¬ ∃ r : Result, QueryAll two_records = (Some r, None).
Proof.
  split.
  - apply (bool_decide_unpack _). vm_compute. exact I.
  - intros [r Hr]. discriminate Hr.
Qed.

(** C2, amended: [QueryAll] is [Query] with the condition that is always
    true, and [Query] returns no result and the error "query failed",
    whatever the collection and the condition. *)
Theorem QueryAll_fails (c : Collection) (q : Condition) :
  QueryAll c = Query c True_
  ∧ Query c q = (None, Some (errorString "query failed"))
  ∧ QueryAll c = (None, Some (errorString "query failed")).
Proof. repeat split. Qed.

(** C3, as the specification has it, fails: on the collection with the
    records 1 and 2, [AddIndex] does not succeed and builds no table. *)
Lemma AddIndex_two_records_fails :
  ¬ (∃ c', AddIndex two_records "color" = (c', None))
  ∧ indexes (fst (AddIndex two_records "color")) !! "color" = None.
Proof.
  split.
  - intros [c' Hc']. discriminate Hc'.
  - reflexivity.
Qed.

(** C3, amended: [AddIndex] returns the error "adding index failed" for
    every collection and every field, and leaves the collection as it was:
    no record is read, no log is made and no table is built. *)
Theorem AddIndex_fails (c : Collection) (field : string) :
  AddIndex c field = (c, Some (errorString "adding index failed"))
  ∧ indexes (fst (AddIndex c field)) = indexes c.
Proof. split; reflexivity. Qed.

(** After [Reindex] the field has no table, whether the log could be removed
    or not. *)
Lemma Reindex_no_table (c : Collection) (w : OS) (field : string) :
  indexes (fst (fst (Reindex c w field))) !! field = None
  ∧ is_Some (snd (Reindex c w field)).
Proof.
  unfold Reindex, RemoveIndex.
  destruct (os_Remove _ w) as [w' [err|]]; cbn [fst snd AddIndex indexes with_indexes].
  - split; [apply lookup_delete_eq|eexists; reflexivity].
  - split; [apply lookup_delete_eq|eexists; reflexivity].
Qed.

(** ** More on the sharder *)

Lemma transformFunc_long (s : string) :
  s ≠ "_next_id" → 4 ≤ String.length s →
  transformFunc s
  = Some [substring 2 2 (substring (String.length s - 4) 4 s);
          substring 0 2 (substring (String.length s - 4) 4 s)].
Proof.
  intros Hne Hlen. unfold transformFunc. rewrite (eqb_next_id_long s Hne).
  rewrite (proj2 (Nat.ltb_ge _ _) Hlen). rewrite slice_Some by lia.
  replace (String.length s - (String.length s - 4)) with 4 by lia.
  cbn [mbind option_bind]. apply two_segments.
  rewrite length_substring; lia.
Qed.

Lemma transformFunc_short (s : string) :
  String.length s < 4 →
  transformFunc s
  = Some [substring 2 2 (Fmt.Sprintf_04s s); substring 0 2 (Fmt.Sprintf_04s s)]
  ∧ 4 ≤ String.length (Fmt.Sprintf_04s s).
Proof.
  intros Hlen. pose proof (RuneCount_le_length s) as Hrc.
  assert (H4 : 4 ≤ String.length (Fmt.Sprintf_04s s))
    by (unfold Fmt.Sprintf_04s; rewrite length_writePadding; lia).
  split; [|exact H4].
  unfold transformFunc. rewrite (eqb_next_id_short s Hlen).
  rewrite (proj2 (Nat.ltb_lt _ _) Hlen). cbn [mbind option_bind].
  apply two_segments. exact H4.
Qed.

(** X1: [transformFunc] never slices out of range: the metadata key has no
    segment, and every other key, of any length and with any bytes, has
    exactly two segments of two bytes. *)
Theorem transformFunc_total (s : string) :
  ∃ segs, transformFunc s = Some segs
    ∧ (s = "_next_id" → segs = [])
    ∧ (s ≠ "_next_id" →
       ∃ seg1 seg2, segs = [seg1; seg2]
         ∧ String.length seg1 = 2 ∧ String.length seg2 = 2).
Proof.
  destruct (String.eqb_spec s "_next_id") as [->|Hne].
  - exists []. split; [reflexivity|]. split; [reflexivity|]. intros H. contradiction.
  - destruct (Nat.lt_ge_cases (String.length s) 4) as [Hshort|Hlong].
    + destruct (transformFunc_short s Hshort) as [Heq H4].
      eexists. split; [exact Heq|]. split; [intros; contradiction|].
      intros _. eexists _, _. split; [reflexivity|].
      split; apply length_substring; lia.
    + eexists. split; [apply transformFunc_long; assumption|].
      split; [intros; contradiction|].
      intros _. eexists _, _. split; [reflexivity|].
      assert (String.length (substring (String.length s - 4) 4 s) = 4)
        by (apply length_substring; lia).
      split; apply length_substring; lia.
Qed.

Lemma substring_halves (d : string) :
  String.length d = 4 → substring 0 2 d ++ substring 2 2 d = d.
Proof.
  destruct d as [|a [|b [|c [|e [|f d]]]]]; cbn; intros H; try discriminate H.
  reflexivity.
Qed.

(** X2: the shard of a key of at least four bytes is a function of its last
    four bytes, and of nothing else: two such keys have the same path
    segments exactly when their last four bytes are the same. *)
Theorem transformFunc_same_shard (s1 s2 : string) :
  s1 ≠ "_next_id" → s2 ≠ "_next_id" →
  4 ≤ String.length s1 → 4 ≤ String.length s2 →
  transformFunc s1 = transformFunc s2
  ↔ substring (String.length s1 - 4) 4 s1 = substring (String.length s2 - 4) 4 s2.
Proof.
  intros Hne1 Hne2 Hl1 Hl2.
  rewrite (transformFunc_long s1 Hne1 Hl1), (transformFunc_long s2 Hne2 Hl2).
  set (d1 := substring (String.length s1 - 4) 4 s1).
  set (d2 := substring (String.length s2 - 4) 4 s2).
  assert (H1 : String.length d1 = 4) by (apply length_substring; lia).
  assert (H2 : String.length d2 = 4) by (apply length_substring; lia).
  split.
  - intros [= Htail Hhead].
    rewrite <- (substring_halves d1 H1), <- (substring_halves d2 H2).
    rewrite Htail, Hhead. reflexivity.
  - intros ->. reflexivity.
Qed.

Lemma transformFunc_same_shard_witness :
  "a1234" ≠ "_next_id" ∧ "b1234" ≠ "_next_id"
  ∧ 4 ≤ String.length "a1234" ∧ 4 ≤ String.length "b1234"
  ∧ transformFunc "a1234" = transformFunc "b1234".
Proof.
  assert (H1 : "a1234" ≠ "_next_id") by discriminate.
  assert (H2 : "b1234" ≠ "_next_id") by discriminate.
  assert (H3 : 4 ≤ String.length "a1234") by (simpl; lia).
  assert (H4 : 4 ≤ String.length "b1234") by (simpl; lia).
  repeat (split; [assumption|]).
  apply (transformFunc_same_shard "a1234" "b1234" H1 H2 H3 H4). reflexivity.
Defined.

(** ** More on the store and the allocator *)

Lemma Write_eq (key : string) (val : list Z) (d : Diskv) :
  Write key val d
  = match fault_at 0 d with
    | Some e => (after_write d (data d), Some e)
    | None => (after_write d (<[key := val]> (data d)), None)
    end.
Proof.
  unfold Write, fault_at, after_write.
  destruct (faults d) as [|[e|] fl]; reflexivity.
Qed.

Lemma fault_at_after_write (n : nat) (d : Diskv) (m : gmap string (list Z)) :
  fault_at n (after_write d m) = fault_at (S n) d.
Proof.
  unfold fault_at, after_write. cbn [faults].
  destruct (faults d) as [|o fl]; reflexivity.
Qed.

Lemma setNextId_eq (c : Collection) (n : Id) :
  setNextId c n
  = with_store c
      (after_write (store c)
         (match fault_at 0 (store c) with
          | Some _ => data (store c)
          | None => <["_next_id" := Binary.PutVarint n]> (data (store c))
          end)).
Proof.
  unfold setNextId. rewrite Write_eq.
  destruct (fault_at 0 (store c)); reflexivity.
Qed.

Lemma fault_at_setNextId (k : nat) (c : Collection) (n : Id) :
  fault_at k (store (setNextId c n)) = fault_at (S k) (store c).
Proof. rewrite setNextId_eq. apply fault_at_after_write. Qed.

Lemma data_setNextId (c : Collection) (n : Id) :
  data (store (setNextId c n))
  = match fault_at 0 (store c) with
    | Some _ => data (store c)
    | None => <["_next_id" := Binary.PutVarint n]> (data (store c))
    end.
Proof. rewrite setNextId_eq. reflexivity. Qed.

Lemma Sprintf_d_inj (x y : Z) : Fmt.Sprintf_d x = Fmt.Sprintf_d y → x = y.
Proof.
  unfold Fmt.Sprintf_d. intros H.
  assert (Hnn : ∀ z, Z.to_int z ≠ Decimal.Pos Decimal.Nil
                     ∧ Z.to_int z ≠ Decimal.Neg Decimal.Nil).
  { intros [|p|p]; cbn; split; try discriminate;
      intros [= Hp]; exact (Unsigned.to_uint_nonnil p Hp). }
  assert (Hi : ∀ z, NilZero.int_of_string (NilZero.string_of_int (Z.to_int z))
                    = Some (Z.to_int z))
    by (intros z; apply NilZero.isi; apply Hnn).
  pose proof (Hi x) as Hx. rewrite H, Hi in Hx. injection Hx as Hx.
  rewrite <- (DecimalZ.of_to x), <- (DecimalZ.of_to y), Hx. reflexivity.
Qed.

(** X3: what [setNextId] writes, [getNextId] reads back: on a store that
    takes the write, the next allocation returns the identifier that was
    set, for every 64-bit identifier, and persists its successor, which
    wraps to the least 64-bit integer after the greatest. *)
Theorem setNextId_getNextId (c : Collection) (n : Id) :
  (- 2 ^ 63 <= n < 2 ^ 63)%Z →
  fault_at 0 (store c) = None → fault_at 1 (store c) = None →
  snd (getNextId (setNextId c n)) = n
  ∧ Read "_next_id" (store (fst (getNextId (setNextId c n))))
    = (Binary.PutVarint (Binary.int64 (n + 1)), None)
  ∧ (Binary.int64 (n + 1) = if (n =? 2 ^ 63 - 1)%Z then (- 2 ^ 63)%Z
                            else (n + 1)%Z).
Proof.
  intros Hn H0 H1.
  assert (Hread : Read "_next_id" (store (setNextId c n))
                  = (Binary.PutVarint n, None)).
  { apply Read_counter. rewrite data_setNextId, H0. apply lookup_insert_eq. }
  rewrite getNextId_eq, Hread. cbn [fst snd].
  rewrite (Varint_PutVarint_fst n Hn).
  split; [reflexivity|]. split.
  - apply Read_counter. rewrite data_setNextId, fault_at_setNextId, H1.
    apply lookup_insert_eq.
  - destruct (Z.eqb_spec n (2 ^ 63 - 1)) as [->|Hne]; [reflexivity|].
    apply int64_small. lia.
Qed.

Lemma setNextId_getNextId_witness :
  (- 2 ^ 63 <= 2 ^ 63 - 1 < 2 ^ 63)%Z
  ∧ fault_at 0 (store two_records) = None
  ∧ fault_at 1 (store two_records) = None
  ∧ snd (getNextId (setNextId two_records (2 ^ 63 - 1)%Z)) = (2 ^ 63 - 1)%Z.
Proof.
  assert (Hn : (- 2 ^ 63 <= 2 ^ 63 - 1 < 2 ^ 63)%Z) by lia.
  split; [exact Hn|]. split; [reflexivity|]. split; [reflexivity|].
  exact (proj1 (setNextId_getNextId two_records (2 ^ 63 - 1)%Z Hn eq_refl eq_refl)).
Defined.

(** X4: on a store that has no key ["_next_id"], [getNextId] does not fail:
    it returns the identifier 0, and it persists the counter 1 when the
    store takes the write. *)
Theorem getNextId_missing_counter (c : Collection) :
  data (store c) !! "_next_id" = None →
  snd (getNextId c) = 0%Z
  ∧ (fault_at 0 (store c) = None →
     Read "_next_id" (store (fst (getNextId c))) = (Binary.PutVarint 1, None)).
Proof.
  intros Hk.
  assert (HR : Read "_next_id" (store c)
               = ([], Some (errorString "no such file or directory")))
    by (unfold Read; rewrite Hk; reflexivity).
  rewrite getNextId_eq, HR. cbn [fst snd].
  change (fst (Binary.Varint [])) with 0%Z.
  change (Binary.int64 (0 + 1)) with 1%Z.
  split; [reflexivity|]. intros H0.
  apply Read_counter. rewrite data_setNextId, H0. apply lookup_insert_eq.
Qed.

Lemma getNextId_missing_counter_witness :
  let c := with_store two_records (diskv_New "/db/colls/c" ∅ []) in
  data (store c) !! "_next_id" = None ∧ snd (getNextId c) = 0%Z.
Proof.
  intros c. split; [reflexivity|].
  exact (proj1 (getNextId_missing_counter c eq_refl)).
Defined.

Section InsertFacts.

Context {Value : Type} (Marshal : Value → list Z + error).

Lemma Insert_eq (c : Collection) (v : Value) (jsondata : list Z) :
  Marshal v = inl jsondata →
  let ident := fst (Binary.Varint (fst (Read "_next_id" (store c)))) in
  let c1 := setNextId c (Binary.int64 (ident + 1)) in
  Insert Marshal c v
  = match fault_at 1 (store c) with
    | None =>
        (with_store c1 (after_write (store c1)
                          (<[Fmt.Sprintf_d ident := jsondata]> (data (store c1)))),
         ident, None)
    | Some e =>
        (setNextId (with_store c1 (after_write (store c1) (data (store c1)))) ident,
         0%Z, Some e)
    end.
Proof.
  intros Hm ident c1. unfold Insert. rewrite Hm, getNextId_eq.
  fold ident. fold c1. rewrite Write_eq.
  unfold c1 at 1. rewrite fault_at_setNextId.
  destruct (fault_at 1 (store c)); reflexivity.
Qed.

(** X5: an [Insert] whose two writes succeed returns the identifier read
    from the counter, with no error; afterwards the store holds the
    serialized value under the decimal key of that identifier and the next
    identifier under ["_next_id"], every other key is as before, and the
    indexes are untouched. *)
Theorem Insert_stores_record (c : Collection) (v : Value) (jsondata : list Z) :
  Marshal v = inl jsondata →
  fault_at 0 (store c) = None → fault_at 1 (store c) = None →
  let ident := fst (Binary.Varint (fst (Read "_next_id" (store c)))) in
  let c' := fst (fst (Insert Marshal c v)) in
  snd (fst (Insert Marshal c v)) = ident
  ∧ snd (Insert Marshal c v) = None
  ∧ Read (Fmt.Sprintf_d ident) (store c') = (jsondata, None)
  ∧ Read "_next_id" (store c')
    = (Binary.PutVarint (Binary.int64 (ident + 1)), None)
  ∧ (∀ key, key ≠ Fmt.Sprintf_d ident → key ≠ "_next_id" →
       data (store c') !! key = data (store c) !! key)
  ∧ indexes c' = indexes c.
Proof.
  intros Hm H0 H1 ident c'. subst c'.
  rewrite (Insert_eq c v jsondata Hm), H1. fold ident.
  cbn [fst snd store with_store indexes after_write data].
  rewrite data_setNextId, H0.
  split; [reflexivity|]. split; [reflexivity|]. split; [|split; [|split]].
  - unfold Read, after_write. cbn [data]. rewrite lookup_insert_eq. reflexivity.
  - unfold Read, after_write. cbn [data].
    rewrite lookup_insert_ne by apply Sprintf_d_not_next_id.
    rewrite lookup_insert_eq. reflexivity.
  - intros key Hk1 Hk2. unfold after_write. cbn [data].
    rewrite !lookup_insert_ne by congruence. reflexivity.
  - reflexivity.
Qed.

(** X6: when the write of the record fails and the write of the rollback
    fails too, [Insert] returns the identifier 0 with the error of the first
    failure only; the counter stays at the successor of the identifier that
    was allocated, so that identifier is skipped, and no record is
    written. *)
Theorem Insert_rollback_lost (c : Collection) (v : Value) (jsondata : list Z)
    (err err' : error) :
  Marshal v = inl jsondata →
  fault_at 0 (store c) = None →
  fault_at 1 (store c) = Some err →
  fault_at 2 (store c) = Some err' →
  let ident := fst (Binary.Varint (fst (Read "_next_id" (store c)))) in
  let c' := fst (fst (Insert Marshal c v)) in
  Insert Marshal c v = (c', 0%Z, Some err)
  ∧ data (store c')
    = <["_next_id" := Binary.PutVarint (Binary.int64 (ident + 1))]> (data (store c))
  ∧ snd (getNextId c') = Binary.int64 (ident + 1).
Proof.
  intros Hm H0 H1 H2 ident c'. subst c'.
  rewrite (Insert_eq c v jsondata Hm), H1. fold ident.
  cbn [fst snd].
  set (c1 := setNextId c (Binary.int64 (ident + 1))).
  set (c2 := with_store c1 (after_write (store c1) (data (store c1)))).
  assert (Hf : fault_at 0 (store c2) = Some err').
  { unfold c2. cbn [store with_store]. rewrite fault_at_after_write.
    unfold c1. rewrite fault_at_setNextId. exact H2. }
  assert (Hd : data (store (setNextId c2 ident))
               = <["_next_id" := Binary.PutVarint (Binary.int64 (ident + 1))]>
                   (data (store c))).
  { rewrite data_setNextId, Hf. unfold c2. cbn [store with_store after_write data].
    unfold c1. rewrite data_setNextId, H0. reflexivity. }
  split; [reflexivity|]. split; [exact Hd|].
  rewrite getNextId_eq.
  rewrite (Read_counter _ _ (eq_trans (f_equal (λ m, m !! "_next_id") Hd)
                               (lookup_insert_eq _ _ _))).
  cbn [fst snd]. apply Varint_PutVarint_fst.
  unfold Binary.int64.
  pose proof (Z.mod_pos_bound (ident + 1 + 2 ^ 63) (2 ^ 64) eq_refl).
  change (2 ^ 64)%Z with (2 * 2 ^ 63)%Z in *. lia.
Qed.

(** X7: [setNextId] drops the error of its write.  When the write of the
    counter fails and the write of the record succeeds, [Insert] reports no
    error, the counter is not advanced, and the next allocation returns the
    same identifier again. *)
Theorem Insert_counter_not_advanced (c : Collection) (v : Value)
    (jsondata : list Z) (err : error) :
  Marshal v = inl jsondata →
  fault_at 0 (store c) = Some err →
  fault_at 1 (store c) = None →
  let ident := fst (Binary.Varint (fst (Read "_next_id" (store c)))) in
  let c' := fst (fst (Insert Marshal c v)) in
  Insert Marshal c v = (c', ident, None)
  ∧ data (store c') = <[Fmt.Sprintf_d ident := jsondata]> (data (store c))
  ∧ snd (getNextId c') = ident.
Proof.
  intros Hm H0 H1 ident c'. subst c'.
  rewrite (Insert_eq c v jsondata Hm), H1. fold ident.
  cbn [fst snd store with_store after_write data].
  rewrite data_setNextId, H0.
  split; [reflexivity|]. split; [reflexivity|].
  rewrite getNextId_eq. cbn [fst snd]. unfold ident, Read.
  cbn [store with_store after_write data].
  rewrite lookup_insert_ne by apply Sprintf_d_not_next_id. reflexivity.
Qed.

End InsertFacts.

Lemma Insert_stores_record_witness :
  sample_Marshal (Some [34; 99; 34]%Z) = inl [34; 99; 34]%Z
  ∧ fault_at 0 (store two_records) = None
  ∧ fault_at 1 (store two_records) = None
  ∧ Read "3" (store (fst (fst (Insert sample_Marshal two_records
                                 (Some [34; 99; 34]%Z)))))
    = ([34; 99; 34]%Z, None).
Proof.
  repeat (split; [reflexivity|]).
  exact (proj1 (proj2 (proj2 (Insert_stores_record sample_Marshal two_records
                                (Some [34; 99; 34]%Z) _ eq_refl eq_refl eq_refl)))).
Defined.

Lemma Insert_rollback_lost_witness :
  sample_Marshal (Some [34; 99; 34]%Z) = inl [34; 99; 34]%Z
  ∧ fault_at 0 (store disk_gone) = None
  ∧ fault_at 1 (store disk_gone) = Some (errorString "no space left on device")
  ∧ fault_at 2 (store disk_gone) = Some (errorString "input/output error")
  ∧ snd (getNextId disk_gone) = 3%Z
  ∧ snd (getNextId (fst (fst (Insert sample_Marshal disk_gone
                                (Some [34; 99; 34]%Z))))) = 4%Z.
Proof.
  repeat (split; [reflexivity|]).
  exact (proj2 (proj2 (Insert_rollback_lost sample_Marshal disk_gone
                         (Some [34; 99; 34]%Z) _ _ _ eq_refl eq_refl eq_refl eq_refl))).
Defined.

Lemma Insert_counter_not_advanced_witness :
  sample_Marshal (Some [34; 99; 34]%Z) = inl [34; 99; 34]%Z
  ∧ fault_at 0 (store counter_stuck) = Some (errorString "input/output error")
  ∧ fault_at 1 (store counter_stuck) = None
  ∧ snd (fst (Insert sample_Marshal counter_stuck (Some [34; 99; 34]%Z))) = 3%Z
  ∧ snd (getNextId (fst (fst (Insert sample_Marshal counter_stuck
                                (Some [34; 99; 34]%Z))))) = 3%Z.
Proof.
  repeat (split; [reflexivity|]).
  exact (proj2 (proj2 (Insert_counter_not_advanced sample_Marshal counter_stuck
                         (Some [34; 99; 34]%Z) _ _ eq_refl eq_refl eq_refl))).
Defined.

Lemma Forall_fault_at (n : nat) (d : Diskv) :
  Forall (λ o, o = None) (faults d) → fault_at n d = None.
Proof.
  unfold fault_at. intros H. destruct (faults d !! n) as [o|] eqn:Hl; [|reflexivity].
  exact (proj1 (Forall_lookup _ _) H n o Hl).
Qed.

Lemma Forall_after_write (d : Diskv) (m : gmap string (list Z)) :
  Forall (λ o, o = None) (faults d) →
  Forall (λ o, o = None) (faults (after_write d m)).
Proof.
  unfold after_write. cbn [faults]. intros H.
  destruct (faults d) as [|o fl]; [constructor|].
  apply Forall_cons in H as [_ H]. exact H.
Qed.

Lemma openColl_store (db : Database) (name : string)
    (disk : gmap string (list Z)) (fl : list (option error)) (w : OS) :
  store (fst (openColl db name disk fl w))
  = match disk !! "_next_id" with
    | Some _ => diskv_New (path db ++ "/colls/" ++ name) disk fl
    | None =>
        fst (Write "_next_id" (Binary.PutVarint 1)
               (diskv_New (path db ++ "/colls/" ++ name) disk fl))
    end.
Proof.
  unfold openColl.
  set (coll := {| store := _; indexpath := _; indexes := _ |}).
  pose proof (loadIndexes_store coll (os_Mkdir (indexpath coll) w)) as Hst.
  destruct (loadIndexes coll _) as [c' w']. cbn [fst] in Hst.
  unfold Read. rewrite Hst. cbn [store coll data diskv_New].
  destruct (disk !! "_next_id"); cbn [fst]; [exact Hst|].
  unfold setNextId. cbn [store with_store]. rewrite Hst. reflexivity.
Qed.

(** X8: where the walk of the index directory does not panic, [openColl] on
    a store that has a key ["_next_id"] writes nothing:
    the counter and the records are those of the store, whatever the
    counter holds, and the first allocation returns what the counter
    decodes to. *)
Theorem openColl_keeps_counter (db : Database) (name : string)
    (disk : gmap string (list Z)) (fl : list (option error)) (w : OS)
    (buf : list Z) :
  walk_panics (path db ++ "/indexes/" ++ name)
    (os_Mkdir (path db ++ "/indexes/" ++ name) w) = false →
  disk !! "_next_id" = Some buf →
  store (fst (openColl db name disk fl w))
  = diskv_New (path db ++ "/colls/" ++ name) disk fl
  ∧ snd (getNextId (fst (openColl db name disk fl w))) = fst (Binary.Varint buf).
Proof.
  intros _ Hk.
  assert (Hst : store (fst (openColl db name disk fl w))
                = diskv_New (path db ++ "/colls/" ++ name) disk fl)
    by (rewrite openColl_store, Hk; reflexivity).
  split; [exact Hst|].
  rewrite getNextId_eq. cbn [snd]. unfold Read. rewrite Hst.
  cbn [data diskv_New]. rewrite Hk. reflexivity.
Qed.

Lemma openColl_keeps_counter_witness :
  data (store two_records) !! "_next_id" = Some [6]%Z
  ∧ snd (getNextId (fst (openColl {| path := "/db" |} "c"
                           (data (store two_records)) [] sample_os))) = 3%Z.
Proof.
  split; [reflexivity|].
  refine (proj2 (openColl_keeps_counter {| path := "/db" |} "c"
                   (data (store two_records)) [] sample_os [6]%Z _ eq_refl)).
  vm_compute. reflexivity.
Defined.

Section MoreRecordFacts.

Context {Value : Type} (Marshal : Value → list Z + error).


Lemma Insert_no_faults (c : Collection) (v : Value) (jsondata : list Z) :
  Marshal v = inl jsondata →
  Forall (λ o, o = None) (faults (store c)) →
  let ident := fst (Binary.Varint (fst (Read "_next_id" (store c)))) in
  ∃ c', Insert Marshal c v = (c', ident, None)
    ∧ data (store c')
      = <[Fmt.Sprintf_d ident := jsondata]>
          (<["_next_id" := Binary.PutVarint (Binary.int64 (ident + 1))]>
             (data (store c)))
    ∧ Forall (λ o, o = None) (faults (store c')).
Proof.
  intros Hm Hfl ident.
  rewrite (Insert_eq Marshal c v jsondata Hm). fold ident.
  rewrite (Forall_fault_at 1 _ Hfl).
  eexists. split; [reflexivity|].
  cbn [store with_store]. split.
  - unfold after_write. cbn [data].
    rewrite data_setNextId, (Forall_fault_at 0 _ Hfl). reflexivity.
  - apply Forall_after_write. rewrite setNextId_eq. cbn [store with_store].
    apply Forall_after_write. exact Hfl.
Qed.

Lemma InsertAll_state (vs : list Value) : ∀ (c : Collection) (k : Z),
  Forall (λ v, is_inl (Marshal v) = true) vs →
  data (store c) !! "_next_id" = Some (Binary.PutVarint k) →
  Forall (λ o, o = None) (faults (store c)) →
  (- 2 ^ 63 <= k)%Z → (k + Z.of_nat (length vs) < 2 ^ 63)%Z →
  let c' := fst (InsertAll Marshal c vs) in
  data (store c') !! "_next_id"
  = Some (Binary.PutVarint (k + Z.of_nat (length vs)))
  ∧ (∀ key, key ≠ "_next_id" →
       (∀ j, j < length vs → key ≠ Fmt.Sprintf_d (k + Z.of_nat j)) →
       data (store c') !! key = data (store c) !! key)
  ∧ (∀ j v, vs !! j = Some v →
       ∃ jsondata, Marshal v = inl jsondata
         ∧ data (store c') !! Fmt.Sprintf_d (k + Z.of_nat j) = Some jsondata).
Proof.
  induction vs as [|v vs IH]; intros c k Hvs Hk Hfl Hlo Hhi.
  - cbn [InsertAll fst length]. split; [rewrite Z.add_0_r; exact Hk|].
    split; [reflexivity|]. intros j v' Hj. discriminate Hj.
  - apply Forall_cons in Hvs as [Hv Hvs]. cbn [length] in Hhi.
    destruct (Marshal v) as [jsondata|] eqn:Hm; [|discriminate Hv].
    destruct (Insert_no_faults c v jsondata Hm Hfl) as (c1 & Hins & Hdata & Hfl1).
    rewrite (Read_counter c _ Hk) in Hins, Hdata. cbn [fst] in Hins, Hdata.
    rewrite (Varint_PutVarint_fst k) in Hins, Hdata by lia.
    rewrite int64_small in Hdata by lia.
    assert (Hk1 : data (store c1) !! "_next_id" = Some (Binary.PutVarint (k + 1))).
    { rewrite Hdata, lookup_insert_ne by apply Sprintf_d_not_next_id.
      apply lookup_insert_eq. }
    destruct (IH c1 (k + 1)%Z Hvs Hk1 Hfl1 ltac:(lia) ltac:(lia))
      as (Hcnt & Hframe & Hrec).
    cbn [InsertAll]. rewrite Hins.
    destruct (InsertAll Marshal c1 vs) as [c2 results]. cbn [fst] in *.
    split; [|split].
    + rewrite Hcnt. do 2 f_equal. cbn [length]. lia.
    + intros key Hkey Hnot. rewrite Hframe.
      * rewrite Hdata, !lookup_insert_ne; [reflexivity|congruence|].
        specialize (Hnot 0 ltac:(cbn [length]; lia)).
        rewrite Z.add_0_r in Hnot. congruence.
      * exact Hkey.
      * intros j Hj. specialize (Hnot (S j) ltac:(cbn [length]; lia)).
        replace (k + 1 + Z.of_nat j)%Z with (k + Z.of_nat (S j))%Z by lia.
        exact Hnot.
    + intros [|j] v' Hj.
      * injection Hj as <-. exists jsondata. split; [exact Hm|].
        rewrite Z.add_0_r, Hframe.
        -- rewrite Hdata. apply lookup_insert_eq.
        -- apply Sprintf_d_not_next_id.
        -- intros j _ Heq. apply Sprintf_d_inj in Heq. lia.
      * destruct (Hrec j v' Hj) as (json' & Hm' & Hl).
        exists json'. split; [exact Hm'|].
        replace (k + Z.of_nat (S j))%Z with (k + 1 + Z.of_nat j)%Z by lia.
        exact Hl.
Qed.

(** X10: a run of [Insert] calls on a store whose writes succeed keeps every
    record: the value of call [j] is under the decimal key of the identifier
    [k + j], where [k] is the counter at the start; the counter ends at [k]
    plus the number of calls, and the keys of other records are as
    before. *)
Theorem InsertAll_keeps_every_record (c : Collection) (k : Z)
    (vs : list Value) :
  Forall (λ v, is_inl (Marshal v) = true) vs →
  data (store c) !! "_next_id" = Some (Binary.PutVarint k) →
  Forall (λ o, o = None) (faults (store c)) →
  (- 2 ^ 63 <= k)%Z → (k + Z.of_nat (length vs) < 2 ^ 63)%Z →
  let c' := fst (InsertAll Marshal c vs) in
  snd (getNextId c') = (k + Z.of_nat (length vs))%Z
  ∧ (∀ j v, vs !! j = Some v →
       ∃ jsondata, Marshal v = inl jsondata
         ∧ Read (Fmt.Sprintf_d (k + Z.of_nat j)) (store c') = (jsondata, None))
  ∧ (∀ key, key ≠ "_next_id" →
       (∀ j, j < length vs → key ≠ Fmt.Sprintf_d (k + Z.of_nat j)) →
       data (store c') !! key = data (store c) !! key).
Proof.
  intros Hvs Hk Hfl Hlo Hhi c'.
  destruct (InsertAll_state vs c k Hvs Hk Hfl Hlo Hhi) as (Hcnt & Hframe & Hrec).
  fold c' in Hcnt, Hframe, Hrec. split; [|split; [|exact Hframe]].
  - rewrite getNextId_eq, (Read_counter c' _ Hcnt). cbn [fst snd].
    apply Varint_PutVarint_fst. lia.
  - intros j v Hj. destruct (Hrec j v Hj) as (jsondata & Hm & Hl).
    exists jsondata. split; [exact Hm|]. unfold Read. rewrite Hl. reflexivity.
Qed.

(** X11: where the walk of the index directory does not panic, opening the
    store again after a run of [Insert] calls goes on with the identifiers: the first allocation of the reopened collection returns
    the counter of the first session plus the number of its calls. *)
Theorem reopen_continues_identifiers (db : Database) (name : string)
    (fl : list (option error)) (w : OS) (c : Collection) (k : Z)
    (vs : list Value) :
  walk_panics (path db ++ "/indexes/" ++ name)
    (os_Mkdir (path db ++ "/indexes/" ++ name) w) = false →
  Forall (λ v, is_inl (Marshal v) = true) vs →
  data (store c) !! "_next_id" = Some (Binary.PutVarint k) →
  Forall (λ o, o = None) (faults (store c)) →
  (- 2 ^ 63 <= k)%Z → (k + Z.of_nat (length vs) < 2 ^ 63)%Z →
  let disk := data (store (fst (InsertAll Marshal c vs))) in
  data (store (fst (openColl db name disk fl w))) = disk
  ∧ snd (getNextId (fst (openColl db name disk fl w)))
    = (k + Z.of_nat (length vs))%Z.
Proof.
  intros _ Hvs Hk Hfl Hlo Hhi disk.
  destruct (InsertAll_state vs c k Hvs Hk Hfl Hlo Hhi) as (Hcnt & _ & _).
  fold disk in Hcnt.
  assert (Hst : store (fst (openColl db name disk fl w))
                = diskv_New (path db ++ "/colls/" ++ name) disk fl)
    by (rewrite openColl_store, Hcnt; reflexivity).
  rewrite getNextId_eq. cbn [snd]. unfold Read. rewrite Hst.
  cbn [data diskv_New]. rewrite Hcnt. cbn [fst].
  split; [reflexivity|]. apply Varint_PutVarint_fst. lia.
Qed.

End MoreRecordFacts.

Lemma InsertAll_keeps_every_record_witness :
  let vs := [Some [34; 99; 34]%Z; Some [34; 100; 34]%Z] in
  let c' := fst (InsertAll sample_Marshal two_records vs) in
  data (store two_records) !! "_next_id" = Some (Binary.PutVarint 3)
  ∧ Read "4" (store c') = ([34; 100; 34]%Z, None)
  ∧ data (store c') !! "1" = data (store two_records) !! "1"
  ∧ snd (getNextId c') = 5%Z.
Proof.
  intros vs c'.
  destruct (InsertAll_keeps_every_record sample_Marshal two_records 3%Z vs)
    as (Hnext & Hrec & Hframe).
  - repeat constructor.
  - reflexivity.
  - constructor.
  - lia.
  - cbn. lia.
  - split; [reflexivity|]. split; [|split; [|exact Hnext]].
    + destruct (Hrec 1 (Some [34; 100; 34]%Z) eq_refl) as (jsondata & [= <-] & Hr).
      exact Hr.
    + apply Hframe; [discriminate|].
      intros [|[|j]] Hj; [discriminate|discriminate|cbn in Hj; lia].
Defined.

Lemma reopen_continues_identifiers_witness :
  let vs := [Some [34; 99; 34]%Z; Some [34; 100; 34]%Z] in
  data (store two_records) !! "_next_id" = Some (Binary.PutVarint 3)
  ∧ snd (getNextId (fst (openColl {| path := "/db" |} "c"
             (data (store (fst (InsertAll sample_Marshal two_records vs))))
             [] sample_os))) = 5%Z.
Proof.
  intros vs. split; [reflexivity|].
  refine (proj2 (reopen_continues_identifiers sample_Marshal {| path := "/db" |}
                   "c" [] sample_os two_records 3%Z vs _ _ eq_refl _ _ _)).
  - vm_compute. reflexivity.
  - repeat constructor.
  - constructor.
  - lia.
  - cbn. lia.
Defined.

(** ** Deleting records *)

(** X12: [Delete] erases the decimal key of the identifier and nothing else:
    the counter and the indexes are as before, so the entries of the indexes
    for that identifier stay.  For an identifier that has no record it
    returns the error of the store and changes nothing. *)
Theorem Delete_erases_key (c : Collection) (ident : Id) :
  let r := Delete c ident in
  indexes (fst r) = indexes c
  ∧ data (store (fst r)) !! "_next_id" = data (store c) !! "_next_id"
  ∧ data (store (fst r)) = delete (Fmt.Sprintf_d ident) (data (store c))
  ∧ (snd r = None ↔ is_Some (data (store c) !! Fmt.Sprintf_d ident))
  ∧ (∀ err, snd r = Some err → store (fst r) = store c).
Proof.
  unfold Delete, Erase.
  destruct (data (store c) !! Fmt.Sprintf_d ident) as [val|] eqn:Hl;
    cbn [fst snd store with_store indexes data].
  - split; [reflexivity|]. split.
    + apply lookup_delete_ne, Sprintf_d_not_next_id.
    + split; [reflexivity|]. split; [|intros err [=]].
      split; [intros _; eexists; reflexivity|reflexivity].
  - split; [reflexivity|]. split; [reflexivity|].
    split; [symmetry; apply delete_id; exact Hl|]. split; [|reflexivity].
    split; [intros [=]|intros [x [=]]].
Qed.

Section DeleteFacts.

Context {Value : Type} (Marshal : Value → list Z + error).

(** X13: deleting the record an [Insert] has just stored gives back the
    records there were before, and does not give back the identifier: the
    next allocation returns its successor. *)
Theorem Insert_Delete (c : Collection) (v : Value) (jsondata : list Z) :
  Marshal v = inl jsondata →
  fault_at 0 (store c) = None → fault_at 1 (store c) = None →
  let ident := fst (Binary.Varint (fst (Read "_next_id" (store c)))) in
  data (store c) !! Fmt.Sprintf_d ident = None →
  let c1 := fst (fst (Insert Marshal c v)) in
  snd (fst (Insert Marshal c v)) = ident
  ∧ snd (Delete c1 ident) = None
  ∧ data (store (fst (Delete c1 ident)))
    = <["_next_id" := Binary.PutVarint (Binary.int64 (ident + 1))]> (data (store c))
  ∧ snd (getNextId (fst (Delete c1 ident))) = Binary.int64 (ident + 1).
Proof.
  intros Hm H0 H1 ident Hfresh c1.
  assert (Hc1 : Insert Marshal c v = (c1, ident, None)
                ∧ data (store c1)
                  = <[Fmt.Sprintf_d ident := jsondata]>
                      (<["_next_id" := Binary.PutVarint (Binary.int64 (ident + 1))]>
                         (data (store c)))).
  { subst c1. rewrite (Insert_eq Marshal c v jsondata Hm), H1. fold ident.
    cbn [fst snd store with_store]. split; [reflexivity|].
    unfold after_write. cbn [data]. rewrite data_setNextId, H0. reflexivity. }
  destruct Hc1 as [Hins Hd1]. rewrite Hins. cbn [fst snd].
  assert (Hdel : snd (Delete c1 ident) = None
                 ∧ data (store (fst (Delete c1 ident)))
                   = <["_next_id" := Binary.PutVarint (Binary.int64 (ident + 1))]>
                       (data (store c))).
  { unfold Delete, Erase. rewrite Hd1, lookup_insert_eq.
    cbn [fst snd store with_store data]. split; [reflexivity|].
    rewrite delete_insert_eq. apply delete_id.
    rewrite lookup_insert_ne by (intros H; symmetry in H; revert H; apply Sprintf_d_not_next_id).
    exact Hfresh. }
  destruct Hdel as [Hok Hd2].
  split; [reflexivity|]. split; [exact Hok|]. split; [exact Hd2|].
  rewrite getNextId_eq. cbn [snd].
  rewrite (Read_counter _ (Binary.PutVarint (Binary.int64 (ident + 1)))).
  - cbn [fst]. apply Varint_PutVarint_fst. unfold Binary.int64.
    pose proof (Z.mod_pos_bound (ident + 1 + 2 ^ 63) (2 ^ 64) eq_refl).
    change (2 ^ 64)%Z with (2 * 2 ^ 63)%Z in *. lia.
  - rewrite Hd2. apply lookup_insert_eq.
Qed.

End DeleteFacts.

Lemma Insert_Delete_witness :
  let v := Some [34; 99; 34]%Z in
  sample_Marshal v = inl [34; 99; 34]%Z
  ∧ data (store two_records) !! Fmt.Sprintf_d 3 = None
  ∧ snd (fst (Insert sample_Marshal two_records v)) = 3%Z
  ∧ snd (getNextId (fst (Delete (fst (fst (Insert sample_Marshal two_records v)))
                           3%Z))) = 4%Z.
Proof.
  intros v. split; [reflexivity|]. split; [reflexivity|].
  destruct (Insert_Delete sample_Marshal two_records v [34; 99; 34]%Z
              eq_refl eq_refl eq_refl eq_refl) as (Hid & _ & _ & Hnext).
  split; [exact Hid|exact Hnext].
Defined.

(** ** More on the indexes *)

Lemma replay_field_of (file : list chunk) : ∀ fpos idx idx',
  replay file fpos idx = inl idx' → field_of idx' = field_of idx.
Proof.
  induction file as [|ch file IH]; intros fpos idx idx' H.
  - injection H as <-. reflexivity.
  - destruct ch as [del val ident n|err]; cbn [replay Deleted deleted] in H.
    + destruct del; cbn [negb] in H.
      * exact (IH _ _ _ H).
      * rewrite (IH _ _ _ H). reflexivity.
    + destruct (is_EOF err); [|discriminate H]. injection H as <-. reflexivity.
Qed.

Lemma with_indexes_id (c : Collection) : with_indexes c (indexes c) = c.
Proof. destruct c; reflexivity. Qed.

(** X14: [loadIndex] installs a table or changes nothing.  When it returns
    an error the collection is the one it was given; when it returns none,
    the table of the field is the replay of the whole log, named after the
    field.  The store and the tables of the other fields are never
    touched. *)
Theorem loadIndex_all_or_nothing (c : Collection) (w : OS)
    (filepath field : string) :
  let r := loadIndex c w filepath field in
  store (fst r) = store c
  ∧ indexpath (fst r) = indexpath c
  ∧ (∀ field', field' ≠ field →
       indexes (fst r) !! field' = indexes c !! field')
  ∧ (∀ err, snd r = Some err → fst r = c)
  ∧ (snd r = None →
     ∃ file idx, os_Open filepath w = inl file
       ∧ replay file 0 (newIndex field) = inl idx
       ∧ field_of idx = field
       ∧ indexes (fst r) !! field = Some idx).
Proof.
  unfold loadIndex. destruct (os_Open filepath w) as [file|err0].
  - destruct (replay file 0 (newIndex field)) as [idx|err1] eqn:Hr;
      cbn [fst snd store indexpath indexes with_indexes].
    + split; [reflexivity|]. split; [reflexivity|]. split.
      * intros field' Hne. apply lookup_insert_ne. congruence.
      * split; [intros err [=]|]. intros _. exists file, idx.
        split; [reflexivity|]. split; [exact Hr|].
        split; [exact (replay_field_of _ _ _ _ Hr)|apply lookup_insert_eq].
    + repeat split; try reflexivity. intros [=].
  - cbn [fst snd]. repeat split; try reflexivity. intros [=].
Qed.

(** X15: loading the same log twice is loading it once: the second
    [loadIndex] returns what the first returned and leaves the collection
    of the first. *)
Theorem loadIndex_idempotent (c : Collection) (w : OS)
    (filepath field : string) :
  loadIndex (fst (loadIndex c w filepath field)) w filepath field
  = loadIndex c w filepath field.
Proof.
  unfold loadIndex. destruct (os_Open filepath w) as [file|err0]; [|reflexivity].
  destruct (replay file 0 (newIndex field)) as [idx|err1] eqn:Hr;
    cbn [fst]; rewrite ?Hr; [|reflexivity].
  unfold with_indexes. cbn [store indexpath indexes].
  rewrite insert_insert_eq. reflexivity.
Qed.

Lemma fold_apply_load_is_Some (w : OS) (f : string) (l : list (string * node)) :
  ∀ m, is_Some (fold_left (apply_load w) l m !! f)
       ↔ is_Some (m !! f)
         ∨ ∃ pn idx, pn ∈ l ∧ Base (fst pn) = f ∧ outcome w pn = Some (inl idx).
Proof.
  induction l as [|pn l IH]; intros m.
  - cbn [fold_left]. split; [intros H; left; exact H|].
    intros [H|(pn & idx & Hin & _)]; [exact H|inversion Hin].
  - cbn [fold_left]. rewrite IH. split.
    + intros [H|(pn' & idx & Hin & Hb & Ho)].
      * unfold apply_load in H.
        destruct (outcome w pn) as [[idx|err]|] eqn:Ho; try (left; exact H).
        destruct (decide (Base (fst pn) = f)) as [Heq|Hne].
        -- right. exists pn, idx. split; [left|]. split; assumption.
        -- left. rewrite lookup_insert_ne in H by exact Hne. exact H.
      * right. exists pn', idx. split; [right; exact Hin|]. split; assumption.
    + intros [H|(pn' & idx & Hin & Hb & Ho)].
      * left. unfold apply_load.
        destruct (outcome w pn) as [[idx|err]|]; try exact H.
        destruct (decide (Base (fst pn) = f)) as [Heq|Hne].
        -- rewrite <- Heq, lookup_insert_eq. eexists; reflexivity.
        -- rewrite lookup_insert_ne by exact Hne. exact H.
      * apply elem_of_cons in Hin as [->|Hin].
        -- left. unfold apply_load. rewrite Ho, <- Hb, lookup_insert_eq.
           eexists; reflexivity.
        -- right. exists pn', idx. split; [exact Hin|]. split; assumption.
Qed.

Lemma outcome_loadIndex (c : Collection) (w : OS) (p : string) (nd : node) :
  (∃ idx, outcome w (p, nd) = Some (inl idx))
  ↔ is_regular nd = true ∧ snd (loadIndex c w p (Base p)) = None.
Proof.
  unfold outcome, loadIndex. cbn [fst snd].
  destruct (is_regular nd).
  - destruct (os_Open p w) as [file|err].
    + destruct (replay file 0 (newIndex (Base p))) as [idx|err]; cbn [snd].
      * split; [intros _; split; reflexivity|intros _; exists idx; reflexivity].
      * split; [intros [idx [=]]|intros [_ [=]]].
    + cbn [snd]. split; [intros [idx [=]]|intros [_ [=]]].
  - split; [intros [idx [=]]|intros [[=] _]].
Qed.

(** X16: where the walk of the index directory does not panic, after
    [openColl] the collection has a table for a field exactly when the walk of the index directory meets a regular file of that base
    name that [loadIndex] loads without error. *)
Theorem openColl_indexed_fields (db : Database) (name : string)
    (disk : gmap string (list Z)) (fl : list (option error)) (w : OS)
    (field : string) :
  let root := path db ++ "/indexes/" ++ name in
  let coll := {| store := diskv_New (path db ++ "/colls/" ++ name) disk fl;
                 indexpath := root; indexes := ∅ |} in
  let w1 := os_Mkdir root w in
  walk_panics root w1 = false →
  is_Some (indexes (fst (openColl db name disk fl w)) !! field)
  ↔ ∃ p nd, (p, nd) ∈ Walk root w1 ∧ is_regular nd = true ∧ Base p = field
            ∧ snd (loadIndex coll w1 p field) = None.
Proof.
  intros root coll w1 _.
  assert (Hix : indexes (fst (openColl db name disk fl w))
                = fold_left (apply_load w1) (Walk root w1) ∅).
  { unfold openColl. fold root. fold coll. change (indexpath coll) with root.
    fold w1. unfold loadIndexes. rewrite fold_visit.
    change (indexpath coll) with root.
    destruct (Read _ _) as [dat [e|]]; reflexivity. }
  rewrite Hix, fold_apply_load_is_Some. split.
  - intros [[x Hx]|([p nd] & idx & Hin & Hb & Ho)].
    + rewrite lookup_empty in Hx. discriminate Hx.
    + cbn [fst] in Hb. exists p, nd. split; [exact Hin|].
      destruct (proj1 (outcome_loadIndex coll w1 p nd)) as [Hreg Hload];
        [exists idx; exact Ho|].
      split; [exact Hreg|]. split; [exact Hb|]. rewrite <- Hb. exact Hload.
  - intros (p & nd & Hin & Hreg & Hb & Hload). right.
    rewrite <- Hb in Hload.
    destruct (proj2 (outcome_loadIndex coll w1 p nd)) as [idx Ho];
      [split; assumption|].
    exists (p, nd), idx. split; [exact Hin|]. split; [exact Hb|exact Ho].
Qed.

Lemma openColl_indexed_fields_witness :
  walk_panics "/db/indexes/c" (os_Mkdir "/db/indexes/c" sample_os) = false
  ∧ is_Some (indexes (fst (openColl {| path := "/db" |} "c" ∅ [] sample_os))
               !! "color")
  ∧ ¬ is_Some (indexes (fst (openColl {| path := "/db" |} "c" ∅ [] sample_os))
                 !! "size").
Proof.
  assert (Hw : walk_panics "/db/indexes/c" (os_Mkdir "/db/indexes/c" sample_os)
               = false) by (vm_compute; reflexivity).
  split; [exact Hw|]. split.
  - apply (openColl_indexed_fields {| path := "/db" |} "c" ∅ [] sample_os
             "color" Hw).
    exists "/db/indexes/c/color", (RegularFile color_log).
    split; [apply list_elem_of_In; vm_compute; right; left; reflexivity|].
    repeat split; vm_compute; reflexivity.
  - intros [idx Hidx]. vm_compute in Hidx. discriminate Hidx.
Defined.

(** X17: where the walk does not panic, [loadIndexes] reads and never
    writes: the store, the files and
    what [os.Remove] refuses are as before, and the lines logged before are
    still there, in front of one line for every log that failed. *)
Theorem loadIndexes_reads_only (c : Collection) (w : OS) :
  walk_panics (indexpath c) w = false →
  store (fst (loadIndexes c w)) = store c
  ∧ indexpath (fst (loadIndexes c w)) = indexpath c
  ∧ fs (snd (loadIndexes c w)) = fs w
  ∧ sticky (snd (loadIndexes c w)) = sticky w
  ∧ logged (snd (loadIndexes c w))
    = (logged w ++ (Walk (indexpath c) w ≫= failure_line w))%list
  ∧ length (logged (snd (loadIndexes c w)))
    ≤ length (logged w) + length (Walk (indexpath c) w).
Proof.
  intros _. unfold loadIndexes. rewrite fold_visit.
  cbn [fst snd store indexpath with_indexes fs sticky logged].
  repeat (split; [reflexivity|]).
  rewrite length_app. apply Nat.add_le_mono_l.
  induction (Walk (indexpath c) w) as [|pn l IH]; [reflexivity|].
  cbn [mbind list_bind]. rewrite length_app. cbn [length].
  unfold failure_line at 1. destruct (outcome w pn) as [[idx|err]|]; cbn [length]; lia.
Qed.

Lemma loadIndexes_reads_only_witness :
  walk_panics (indexpath two_records) sample_os = false
  ∧ fs (snd (loadIndexes two_records sample_os)) = fs sample_os
  ∧ logged (snd (loadIndexes two_records sample_os))
    = ["loadIndex /db/indexes/c/size failed: unexpected EOF"].
Proof.
  assert (Hw : walk_panics (indexpath two_records) sample_os = false)
    by (vm_compute; reflexivity).
  destruct (loadIndexes_reads_only two_records sample_os Hw)
    as (_ & _ & Hfs & _ & Hlog & _).
  split; [exact Hw|]. split; [exact Hfs|].
  rewrite Hlog. vm_compute. reflexivity.
Defined.

(** X18: [RemoveIndex] touches one field and at most one node.  The table
    of the field is gone whatever [os.Remove] answers; the tables of the
    other fields and the store are as before.  When it returns no error,
    the node the path of the log names is gone, it was not a directory with
    entries, and every other node is as before; when it returns an error no
    node has changed. *)
Theorem RemoveIndex_one_field (c : Collection) (w : OS) (field : string) :
  let r := RemoveIndex c w field in
  let logfile := indexpath c ++ "/" ++ field in
  store (fst (fst r)) = store c
  ∧ indexes (fst (fst r)) !! field = None
  ∧ (∀ field', field' ≠ field →
       indexes (fst (fst r)) !! field' = indexes c !! field')
  ∧ (snd r = None →
     ∃ key nd, key_of logfile w = Some key
       ∧ lookup_key key (fs w) = Some nd
       ∧ (is_Directory nd = true → has_entries key (fs w) = false)
       ∧ fs (snd (fst r))
         = List.filter (λ kn, negb (String.eqb (fst kn) key)) (fs w))
  ∧ (∀ err, snd r = Some err → snd (fst r) = w).
Proof.
  intros r logfile.
  assert (Hr : r = (with_indexes c (delete field (indexes c)),
                    fst (os_Remove logfile w), snd (os_Remove logfile w))).
  { subst r. unfold RemoveIndex.
    change (indexpath (with_indexes c (delete field (indexes c)))) with (indexpath c).
    fold logfile. destruct (os_Remove logfile w) as [w' [err|]]; reflexivity. }
  rewrite Hr. cbn [fst snd store indexes with_indexes].
  split; [reflexivity|]. split; [apply lookup_delete_eq|].
  split; [intros field' Hne; apply lookup_delete_ne; congruence|]. split.
  - unfold os_Remove, key_of.
    destruct (resolve (fs w) logfile) as [stack|]; [|intros [=]].
    destruct (lookup_key _ (fs w)) as [nd|] eqn:Hl; [|intros [=]].
    destruct (is_Directory nd && dot_last logfile) eqn:Hdot; [intros [=]|].
    destruct (is_Directory nd && has_entries _ (fs w)) eqn:Hent; [intros [=]|].
    destruct (existsb _ (sticky w)); [intros [=]|]. intros _.
    exists (render (rooted logfile) stack), nd.
    split; [reflexivity|]. split; [exact Hl|]. split; [|reflexivity].
    intros Hd. rewrite Hd in Hent. exact Hent.
  - intros err Herr.
    destruct (os_Remove logfile w) as [w' e] eqn:Hrm. cbn [fst snd] in *.
    subst e. exact (os_Remove_error _ _ _ _ Hrm).
Qed.

(** X19: [Reindex] never succeeds and never rebuilds: it returns the error
    of [os.Remove], or the error of [AddIndex] when the log could be
    removed; either way the field has no table afterwards, and the files
    are those [RemoveIndex] left. *)
Theorem Reindex_never_rebuilds (c : Collection) (w : OS) (field : string) :
  snd (Reindex c w field)
  = Some (match snd (RemoveIndex c w field) with
          | Some err => err
          | None => errorString "adding index failed"
          end)
  ∧ fst (Reindex c w field) = fst (RemoveIndex c w field)
  ∧ indexes (fst (fst (Reindex c w field))) !! field = None.
Proof.
  unfold Reindex.
  assert (Habs : indexes (fst (fst (RemoveIndex c w field))) !! field = None).
  { unfold RemoveIndex. destruct (os_Remove _ w) as [w' [e|]];
      cbn [fst indexes with_indexes]; apply lookup_delete_eq. }
  destruct (RemoveIndex c w field) as [[c' w'] [err|]];
    cbn [fst snd AddIndex] in *; repeat split; exact Habs.
Qed.

Lemma live_pairs_app (l1 l2 : list chunk) :
  Forall (λ ch, is_Rec ch = true) l1 →
  live_pairs (l1 ++ l2) = (live_pairs l1 ++ live_pairs l2)%list.
Proof.
  induction 1 as [|ch l1 Hch _ IH]; [reflexivity|].
  destruct ch as [del val ident n|]; [|discriminate Hch].
  cbn [app live_pairs]. destruct del; rewrite IH; reflexivity.
Qed.

(** X20: the replay of [loadIndex] only ever adds: every mapping of the
    table replayed from a log is a mapping of the table replayed from that
    log with more entries after it, deleted or not. *)
Theorem replay_append_keeps_mappings (l1 l2 : list chunk) (field v : string)
    (i : Z) :
  Forall (λ ch, is_Rec ch = true) l1 →
  Forall (λ ch, is_Rec ch = true) l2 →
  has_mapping (table_of (replay l1 0 (newIndex field))) v i = true →
  has_mapping (table_of (replay (l1 ++ l2) 0 (newIndex field))) v i = true.
Proof.
  intros H1 H2.
  destruct (replay_live l1 H1 0%Z (newIndex field)) as (idx1 & Hr1 & _ & Hm1 & _).
  destruct (replay_live (l1 ++ l2) (Forall_app_2 _ _ _ H1 H2) 0%Z (newIndex field))
    as (idx2 & Hr2 & _ & Hm2 & _).
  rewrite Hr1, Hr2. cbn [table_of]. unfold has_mapping.
  rewrite !bool_decide_eq_true, Hm1, Hm2, live_pairs_app by exact H1.
  intros [H|H]; [left; apply elem_of_app; left; exact H|right; exact H].
Qed.

Lemma replay_append_keeps_mappings_witness :
  Forall (λ ch, is_Rec ch = true) color_log
  ∧ has_mapping (table_of (replay (color_log ++ [Rec true "red" 3 12]) 0
                             (newIndex "color"))) "red" 3 = true.
Proof.
  assert (H1 : Forall (λ ch, is_Rec ch = true) color_log) by repeat constructor.
  split; [exact H1|].
  apply (replay_append_keeps_mappings color_log [Rec true "red" 3 12] "color"
           "red" 3 H1); [repeat constructor|].
  vm_compute. reflexivity.
Defined.

(** ** More on the encoding of the counter *)

Section MoreBinaryFacts.
Import Binary.
Local Open Scope Z_scope.

Lemma byte_range (y : Z) : 0 <= byte y < 256 ∧ 0 <= Z.lor (byte y) 128 < 256.
Proof.
  unfold byte.
  assert (Hb : 0 <= y mod 256 < 256) by (apply Z.mod_pos_bound; lia).
  split; [exact Hb|].
  generalize dependent (y mod 256). intros b Hb.
  assert (H : forallb (λ n, Z.lor (Z.of_nat n) 128 <? 256) (seq 0 256) = true)
    by (vm_compute; reflexivity).
  rewrite forallb_forall in H.
  specialize (H (Z.to_nat b)). rewrite Z2Nat.id in H by lia.
  split; [apply Z.lor_nonneg; lia|].
  apply Z.ltb_lt, H, in_seq. lia.
Qed.

Lemma PutUvarint_loop_bytes (room : nat) : ∀ y,
  (length (PutUvarint_loop room y) <= room)%nat
  ∧ Forall (λ b, 0 <= b < 256) (PutUvarint_loop room y).
Proof.
  induction room as [|room IH]; intros y; [split; [reflexivity|constructor]|].
  cbn [PutUvarint_loop]. destruct (128 <=? y).
  - destruct (IH (Z.shiftr y 7)) as [Hl Hb]. cbn [length]. split; [lia|].
    constructor; [apply byte_range|exact Hb].
  - cbn [length]. split; [lia|]. constructor; [apply byte_range|constructor].
Qed.

(** X21: the counter always fits the buffer of [setNextId]: for every 64-bit
    identifier [PutVarint] writes between one and [MaxVarintLen64] bytes,
    all below 256, and [Varint] reads the identifier back from exactly these
    bytes. *)
Theorem PutVarint_fits_buffer (x : Z) :
  - 2 ^ 63 <= x < 2 ^ 63 →
  (1 <= length (PutVarint x) <= MaxVarintLen64)%nat
  ∧ Forall (λ b, 0 <= b < 256) (PutVarint x)
  ∧ Varint (PutVarint x) = (x, Z.of_nat (length (PutVarint x))).
Proof.
  intros Hx. split; [|split; [|apply Varint_PutVarint; exact Hx]].
  - split.
    + unfold PutVarint, PutUvarint, MaxVarintLen64. cbn [PutUvarint_loop].
      destruct (128 <=? _); cbn [length]; lia.
    + apply PutUvarint_loop_bytes.
  - apply PutUvarint_loop_bytes.
Qed.

Lemma PutVarint_fits_buffer_witness :
  - 2 ^ 63 <= - 2 ^ 63 < 2 ^ 63
  ∧ Varint (PutVarint (- 2 ^ 63)) = (- 2 ^ 63, 10).
Proof.
  assert (Hx : - 2 ^ 63 <= - 2 ^ 63 < 2 ^ 63) by lia.
  split; [exact Hx|].
  exact (proj2 (proj2 (PutVarint_fits_buffer (- 2 ^ 63) Hx))).
Defined.

End MoreBinaryFacts.

(** X22: the keys of the records never clash: the decimal keys of two
    identifiers are the same only for the same identifier, none of them is
    the key of the counter, and every one of them has a shard of two
    segments. *)
Theorem record_keys_never_clash (x y : Id) :
  (Fmt.Sprintf_d x = Fmt.Sprintf_d y ↔ x = y)
  ∧ Fmt.Sprintf_d x ≠ "_next_id"
  ∧ ∃ seg1 seg2, transformFunc (Fmt.Sprintf_d x) = Some [seg1; seg2].
Proof.
  split; [split; [apply Sprintf_d_inj|intros ->; reflexivity]|].
  split; [apply Sprintf_d_not_next_id|].
  destruct (Nat.lt_ge_cases (String.length (Fmt.Sprintf_d x)) 4) as [Hs|Hl].
  - eexists _, _. exact (proj1 (transformFunc_short _ Hs)).
  - eexists _, _. apply transformFunc_long; [apply Sprintf_d_not_next_id|exact Hl].
Qed.
